(** * tetris-js: a shallow embedding of [index.js] and its specification

    The game keeps all of its state in module-level variables; here they are
    the fields of the record [State], and every function of the script is a
    function from states to states.  A function that can raise a [TypeError]
    returns an [option]: [None] is the exception.

    Square objects are shared between [_placedSquares] and [_fallingSquares]
    and mutated in place ([b.y++]), so both arrays hold references into a
    store of squares, [heap]. *)

From Stdlib Require Import ZArith QArith Qround Lia List Bool String.
From stdpp Require Import base option list gmap strings.

Import ListNotations.
Local Open Scope Z_scope.

(** ** JavaScript numbers, as far as the script uses them

    Every number the script feeds to a bitwise operator is an integer; the
    operators work on its 32-bit two's complement value, which [Z.land] and
    [Z.lor] respect when both arguments are in the signed 32-bit range. *)

Module JS.

(** [ToInt32] of an integer-valued number. *)
Definition ToInt32 (n : Z) : Z := (n + 2 ^ 31) mod 2 ^ 32 - 2 ^ 31.

(** A value read from an array slot: [None] is [undefined], which the
    bitwise operators read as [0]. *)
Definition ToInt32_opt (v : option Z) : Z :=
  match v with
  | Some n => ToInt32 n
  | None => 0
  end.

(** [a << b]: the shift count is the low five bits of [b]. *)
Definition shl (a b : Z) : Z := ToInt32 (Z.shiftl (ToInt32 a) (b mod 32)).

(** [a & b] and [a | b]. *)
Definition and (a b : Z) : Z := Z.land a b.
Definition or (a b : Z) : Z := Z.lor a b.

(** Truthiness of a number. *)
Definition truthy (n : Z) : bool := negb (n =? 0).

(** Being a signed 32-bit integer, in the form that the bitwise operators
    preserve: everything above bit 30 is the sign. *)
Definition int32 (n : Z) : Prop := Z.shiftr n 31 = 0 \/ Z.shiftr n 31 = -1.

(** [Math.round]: the nearest integer, halves rounded up. *)
Definition Math_round (q : Q) : Z := Qfloor (q + (1 # 2)).

End JS.

(** ** Board constants *)

Definition _boardWidth : Z := 10.
Definition _boardHeight : Z := 22.

(** [Math.pow(2, _boardWidth) - 1] *)
Definition _fullRowVal : Z := 2 ^ _boardWidth - 1.

(** ** Data *)

(** The draw colours of the seven pieces. *)
Inductive Color : Set :=
  cyan | blue | orange | yellow | green | purple | red.

(** A cell of a piece matrix: [false], or the colour of the piece. *)
Definition Cell : Set := option Color.
Definition Matrix : Set := list (list Cell).

(** [{ x, y, color }] *)
Record Square : Set := mkSquare { sq_x : Z; sq_y : Z; sq_color : Color }.

(** [{ x, y, m }] *)
Record Piece : Set := mkPiece { p_x : Z; p_y : Z; p_m : Matrix }.

(** The values [_activePiece] takes: the array [[]] it is initialised with,
    [null] after a landing, or a piece. *)
Inductive ActivePiece : Set :=
| APInit
| APNull
| APiece (p : Piece).

(** A reference to a square object: its position in the store [heap].  The
    script only ever holds references to objects it has created; a state in
    which [_placedSquares] or [_fallingSquares] names a position outside the
    store stands for no state of the script (see [allocated] below). *)
Definition ref : Set := nat.

Record State : Type := mkState {
  _gameInPlay : bool;
  _gamePaused : bool;
  heap : list Square;
  _placedSquares : list ref;
  _fallingSquares : list ref;
  _collisionRows : gmap Z Z;
  _activePiece : ActivePiece;
  _pieceInPlay : bool
}.

#[global] Instance Color_eq_dec : EqDecision Color.
Proof. solve_decision. Defined.

#[global] Instance Square_eq_dec : EqDecision Square.
Proof. solve_decision. Defined.

#[global] Instance Square_inhabited : Inhabited Square :=
  populate (mkSquare 0 0 cyan).

(** Field updates. *)
Definition set_rows (rows : gmap Z Z) (s : State) : State :=
  mkState (_gameInPlay s) (_gamePaused s) (heap s) (_placedSquares s)
          (_fallingSquares s) rows (_activePiece s) (_pieceInPlay s).

Definition set_placed (l : list ref) (s : State) : State :=
  mkState (_gameInPlay s) (_gamePaused s) (heap s) l
          (_fallingSquares s) (_collisionRows s) (_activePiece s) (_pieceInPlay s).

Definition set_falling (l : list ref) (s : State) : State :=
  mkState (_gameInPlay s) (_gamePaused s) (heap s) (_placedSquares s)
          l (_collisionRows s) (_activePiece s) (_pieceInPlay s).

Definition set_heap (h : list Square) (s : State) : State :=
  mkState (_gameInPlay s) (_gamePaused s) h (_placedSquares s)
          (_fallingSquares s) (_collisionRows s) (_activePiece s) (_pieceInPlay s).

Definition set_piece (a : ActivePiece) (inPlay : bool) (s : State) : State :=
  mkState (_gameInPlay s) (_gamePaused s) (heap s) (_placedSquares s)
          (_fallingSquares s) (_collisionRows s) a inPlay.

Definition set_gameInPlay (b : bool) (s : State) : State :=
  mkState b (_gamePaused s) (heap s) (_placedSquares s)
          (_fallingSquares s) (_collisionRows s) (_activePiece s) (_pieceInPlay s).

Definition set_gamePaused (b : bool) (s : State) : State :=
  mkState (_gameInPlay s) b (heap s) (_placedSquares s)
          (_fallingSquares s) (_collisionRows s) (_activePiece s) (_pieceInPlay s).

(** ** The collision index *)

(** [_collisionRows[y] = _collisionRows[y] | (1 << x)] *)
Definition FixSquareAt (x y : Z) (s : State) : State :=
  set_rows (<[y := JS.or (JS.ToInt32_opt (_collisionRows s !! y)) (JS.shl 1 x)]>
              (_collisionRows s)) s.

(** [return _collisionRows[y] & (1 << x)] *)
Definition SquareFixedAt (x y : Z) (s : State) : Z :=
  JS.and (JS.ToInt32_opt (_collisionRows s !! y)) (JS.shl 1 x).

(** [_collisionRows[y] = _collisionRows[y] & (1 << x)] *)
Definition UnfixSquareAt (x y : Z) (s : State) : State :=
  set_rows (<[y := JS.and (JS.ToInt32_opt (_collisionRows s !! y)) (JS.shl 1 x)]>
              (_collisionRows s)) s.

(** ** The piece factory *)

(** A shape template: a colour and a grid of 0 and 1. *)
Record PieceType : Set := mkPieceType { color : Color; blocks : list (list Z) }.

Definition iPiece : PieceType :=
  mkPieceType cyan
    [ [0; 0; 0; 0];
      [1; 1; 1; 1];
      [0; 0; 0; 0];
      [0; 0; 0; 0] ].

Definition jPiece : PieceType :=
  mkPieceType blue
    [ [1; 0; 0];
      [1; 1; 1];
      [0; 0; 0] ].

Definition lPiece : PieceType :=
  mkPieceType orange
    [ [0; 0; 1];
      [1; 1; 1];
      [0; 0; 0] ].

Definition oPiece : PieceType :=
  mkPieceType yellow
    [ [0; 0; 0; 0];
      [0; 1; 1; 0];
      [0; 1; 1; 0];
      [0; 0; 0; 0] ].

Definition sPiece : PieceType :=
  mkPieceType green
    [ [0; 1; 1];
      [1; 1; 0];
      [0; 0; 0] ].

Definition tPiece : PieceType :=
  mkPieceType purple
    [ [0; 1; 0];
      [1; 1; 1];
      [0; 0; 0] ].

Definition zPiece : PieceType :=
  mkPieceType red
    [ [1; 1; 0];
      [0; 1; 1];
      [0; 0; 0] ].

Definition pieceTypes : list PieceType :=
  [iPiece; jPiece; lPiece; oPiece; sPiece; tPiece; zPiece].

(** [a[i]] for an integer-valued index: [None] is [undefined]. *)
Definition index {A : Type} (a : list A) (i : Z) : option A :=
  if i <? 0 then None else a !! Z.to_nat i.

(** [Math.round(Math.random()*(pieceTypes.length-1))], for the value [r] that
    [Math.random()] returned. *)
Definition pieceIndex (r : Q) : Z :=
  JS.Math_round (r * inject_Z (Z.of_nat (length pieceTypes) - 1)).

(** The matrix built from a template: 0 becomes [false], anything else the
    template's colour. *)
Definition matrixOf (t : PieceType) : Matrix :=
  map (map (fun item : Z => if item =? 0 then None else Some (color t))) (blocks t).

(** [GenerateNewPiece()], for the value [r] that [Math.random()] returned.
    An index outside the table selects [undefined], and reading its
    [blocks] raises. *)
Definition GenerateNewPiece (r : Q) : option Piece :=
  randomPiece ← index pieceTypes (pieceIndex r);
  Some (mkPiece 0 0 (matrixOf randomPiece)).

(** ** Walking a piece matrix

    [SpawnNewPiece], [ProcessGravity] and [MovePieceSideways] all visit the
    matrix with [for i ... for j ...], skip the falsy cells and compute
    [x = piece.x + j], [y = piece.y + i].  [pieceCells] lists the cells such a
    walk reaches, in that order. *)

Fixpoint rowCells (x y : Z) (row : list Cell) : list (Z * Z * Color) :=
  match row with
  | [] => []
  | None :: row' => rowCells (x + 1) y row'
  | Some c :: row' => (x, y, c) :: rowCells (x + 1) y row'
  end.

Fixpoint matrixCells (x y : Z) (m : Matrix) : list (Z * Z * Color) :=
  match m with
  | [] => []
  | row :: m' => rowCells x y row ++ matrixCells x (y + 1) m'
  end.

Definition pieceCells (p : Piece) : list (Z * Z * Color) :=
  matrixCells (p_x p) (p_y p) (p_m p).

(** ** Rendering

    [Draw] only reads the state; the canvas is not modelled.  It returns
    early when [_activePiece] is falsy, and raises on the initial [[]], which
    is truthy and has no [m]. *)
Definition Draw (s : State) : option unit :=
  match _activePiece s with
  | APInit => None
  | APNull => Some tt
  | APiece _ => Some tt
  end.

(** ** Spawning *)

(** The body of [SpawnNewPiece] after [piece] has been generated: the boolean
    is the function's return value. *)
Definition SpawnPiece (piece : Piece) (s : State) : bool * State :=
  let piece :=
    mkPiece (p_x piece + (JS.Math_round (inject_Z _boardWidth / 2) - 2))
            (p_y piece) (p_m piece) in
  if existsb (fun '(x, y, _) => JS.truthy (SquareFixedAt x y s)) (pieceCells piece)
  then (false, s)
  else (true, set_piece (APiece piece) true s).

Definition SpawnNewPiece (r : Q) (s : State) : option (bool * State) :=
  piece ← GenerateNewPiece r;
  Some (SpawnPiece piece s).

Definition SetGameOver (s : State) : State := set_gameInPlay false s.

(** ** Gravity *)

(** The test made on every occupied cell of the player piece.  The [break]
    that follows it leaves the inner loop only; as the walk can only ever
    lower [movePlayerPiece], the cells it skips do not change the flag. *)
Definition blockedBelow (s : State) (c : Z * Z * Color) : bool :=
  let '(x, y, _) := c in
  (y >? _boardHeight - 2) || JS.truthy (SquareFixedAt x (y + 1) s).

(** One turn of the [forEach] that fixes the landed piece: set the bit, then
    push a fresh square object on [_placedSquares]. *)
Definition fixCell (s : State) (c : Z * Z * Color) : State :=
  let '(x, y, b) := c in
  let s := FixSquareAt x y s in
  set_placed (_placedSquares s ++ [length (heap s)])
             (set_heap (heap s ++ [mkSquare x y b]) s).

(** One turn of [_fallingSquares.forEach]; the second component is
    [stillFalling]. *)
Definition fallSquare (acc : State * list ref) (b : ref) : State * list ref :=
  let '(s, stillFalling) := acc in
  let sq := heap s !!! b in
  if (sq_y sq <? _boardHeight - 1)
     && negb (JS.truthy (SquareFixedAt (sq_x sq) (sq_y sq + 1) s))
  then (set_heap (<[b := mkSquare (sq_x sq) (sq_y sq + 1) (sq_color sq)]> (heap s)) s,
        stillFalling ++ [b])
  else (FixSquareAt (sq_x sq) (sq_y sq) s, stillFalling).

Definition fallSquares (s : State) : State :=
  let '(s', stillFalling) := foldl fallSquare (s, []) (_fallingSquares s) in
  set_falling stillFalling s'.

(** The first half of [ProcessGravity], on the player piece. *)
Definition dropPiece (p : Piece) (s : State) : State :=
  let movePlayerPiece := negb (existsb (blockedBelow s) (pieceCells p)) in
  if movePlayerPiece
  then set_piece (APiece (mkPiece (p_x p) (p_y p + 1) (p_m p))) (_pieceInPlay s) s
  else set_piece APNull false (foldl fixCell s (pieceCells p)).

(** [ProcessGravity()]: it reads [_activePiece.m.length] first, which
    raises on [null] and on the initial [[]]. *)
Definition ProcessGravity (s : State) : option State :=
  match _activePiece s with
  | APiece p => Some (fallSquares (dropPiece p s))
  | APInit | APNull => None
  end.

(** ** Clearing rows *)

(** One turn of [_placedSquares.forEach] in [RemoveRow]; the second component
    is [newBoard]. *)
Definition releaseSquare (rowIndex : Z) (acc : State * list ref) (b : ref)
  : State * list ref :=
  let '(s, newBoard) := acc in
  let sq := heap s !!! b in
  if sq_y sq =? rowIndex then (s, newBoard)
  else (set_falling (_fallingSquares s ++ [b]) (UnfixSquareAt (sq_x sq) (sq_y sq) s),
        newBoard ++ [b]).

Definition RemoveRow (rowIndex : Z) (s : State) : State :=
  let s0 := set_rows (<[rowIndex := 0]> (_collisionRows s)) s in
  let '(s', newBoard) := foldl (releaseSquare rowIndex) (s0, []) (_placedSquares s) in
  set_placed newBoard s'.

(** [_collisionRows[i] == _fullRowVal] *)
Definition rowIsFull (i : Z) (s : State) : bool :=
  match _collisionRows s !! i with
  | Some v => v =? _fullRowVal
  | None => false
  end.

(** The loop of [CheckForRowsCleared] from row [i], for [n] more rows. *)
Fixpoint scanRows (n : nat) (i : Z) (s : State) : option State :=
  match n with
  | O => Some s
  | S n' =>
      s' ← (if rowIsFull i s
            then let s1 := RemoveRow i s in _ ← Draw s1; Some s1
            else Some s);
      scanRows n' (i + 1) s'
  end.

Definition CheckForRowsCleared (s : State) : option State :=
  scanRows (Z.to_nat _boardHeight) 0 s.

(** ** The game loop *)

(** [GameLoop()]; [r] is what [Math.random()] returns if a piece is spawned. *)
Definition GameLoop (r : Q) (s : State) : option State :=
  if _gamePaused s then Some s
  else
    spawned ← (if negb (_pieceInPlay s) then SpawnNewPiece r s else Some (true, s));
    let '(ok, s1) := spawned in
    if negb ok then Some (SetGameOver s1)
    else
      _ ← Draw s1;
      s2 ← ProcessGravity s1;
      CheckForRowsCleared s2.

(** ** Player input *)

(** The test [MovePieceSideways] makes on every occupied cell; either branch
    returns from the function. *)
Definition blockedSideways (moveLeft : bool) (s : State) (c : Z * Z * Color) : bool :=
  let '(x, y, _) := c in
  if (moveLeft && (x =? 0)) || JS.truthy (SquareFixedAt (x - 1) y s) then true
  else if (negb moveLeft && (x =? _boardWidth - 1)) || JS.truthy (SquareFixedAt (x + 1) y s)
       then true
       else false.

Definition MovePieceSideways (moveLeft : bool) (s : State) : option State :=
  match _activePiece s with
  | APNull => Some s
  | APInit => None
  | APiece p =>
      if existsb (blockedSideways moveLeft s) (pieceCells p) then Some s
      else
        let s' := set_piece
                    (APiece (mkPiece (p_x p + (if moveLeft then -1 else 1)) (p_y p) (p_m p)))
                    (_pieceInPlay s) s in
        _ ← Draw s';
        Some s'
  end.

(** [m[i][j]]: raises when row [i] is missing; a cell missing from its row
    reads [undefined], which is falsy like [false] and is not told apart from
    it here. *)
Definition cell (m : Matrix) (ij : nat * nat) : option Cell :=
  row ← m !! ij.1;
  Some (default None (row !! ij.2)).

Definition RotatePiece (m : Matrix) : option Matrix :=
  if (length m =? 4)%nat then
    mapM (mapM (cell m))
      [ [(3, 0); (2, 0); (1, 0); (0, 0)];
        [(3, 1); (2, 1); (1, 1); (0, 1)];
        [(3, 2); (2, 2); (1, 2); (0, 2)];
        [(3, 3); (2, 3); (1, 3); (0, 3)] ]%nat
  else
    mapM (mapM (cell m))
      [ [(2, 0); (1, 0); (0, 0)];
        [(2, 1); (1, 1); (0, 1)];
        [(2, 2); (1, 2); (0, 2)] ]%nat.

Definition HandleKeyInput (key : string) (s : State) : option State :=
  if String.eqb key "ArrowLeft" then MovePieceSideways true s
  else if String.eqb key "ArrowUp" then
    match _activePiece s with
    | APNull => Some s
    | APInit => None
    | APiece p =>
        m' ← RotatePiece (p_m p);
        let s' := set_piece (APiece (mkPiece (p_x p) (p_y p) m')) (_pieceInPlay s) s in
        _ ← Draw s';
        Some s'
    end
  else if String.eqb key "ArrowRight" then MovePieceSideways false s
  else if String.eqb key "p" then Some (set_gamePaused (negb (_gamePaused s)) s)
  else Some s.

(** ** Running the game *)

(** The state the script's initialisers leave. *)
Definition loaded : State := mkState true false [] [] [] ∅ APInit false.

(** [StartGame] pushes [_boardHeight] zeros on the empty [_collisionRows]. *)
Definition StartGame (s : State) : State :=
  set_rows (foldl (fun rows i => <[i := 0]> rows) (_collisionRows s)
                  (seqZ 0 _boardHeight)) s.

(** What the browser delivers: a timer tick (with the value [Math.random()]
    would return during it) or a key press. *)
Inductive Event : Type :=
| Tick (r : Q)
| KeyDown (key : string).

(** A running page: the state and whether the interval is still set. *)
Record Page : Type := mkPage { interval : bool; state : State }.

(** The interval callback: it cancels the interval once the game is over and
    runs [GameLoop] all the same. *)
Definition onInterval (r : Q) (pg : Page) : option Page :=
  if interval pg then
    s' ← GameLoop r (state pg);
    Some (mkPage (interval pg && _gameInPlay (state pg)) s')
  else Some pg.

Definition deliver (e : Event) (pg : Page) : option Page :=
  match e with
  | Tick r => onInterval r pg
  | KeyDown key => s' ← HandleKeyInput key (state pg); Some (mkPage (interval pg) s')
  end.

Fixpoint run (es : list Event) (pg : Page) : option Page :=
  match es with
  | [] => Some pg
  | e :: es' => pg' ← deliver e pg; run es' pg'
  end.

Definition started : Page := mkPage true (StartGame loaded).

(** * Vocabulary of the specification *)

(** [occupied p x y c]: the matrix of [p] has colour [c] at some row [i] and
    column [j], which the piece puts at column [x = p.x + j] and row
    [y = p.y + i] of the board. *)
Definition occupied (p : Piece) (x y : Z) (c : Color) : Prop :=
  exists (i j : nat) (row : list Cell),
    p_m p !! i = Some row /\ row !! j = Some (Some c) /\
    x = p_x p + Z.of_nat j /\ y = p_y p + Z.of_nat i.

(** A coordinate reads as fixed in the collision index. *)
Definition isFixed (x y : Z) (s : State) : Prop :=
  JS.truthy (SquareFixedAt x y s) = true.

#[global] Instance isFixed_dec x y s : Decision (isFixed x y s).
Proof. unfold isFixed. apply _. Defined.

(** Some occupied cell of the piece lies on a coordinate that reads as fixed. *)
Definition overlapsFixed (p : Piece) (s : State) : Prop :=
  exists x y c, occupied p x y c /\ isFixed x y s.

(** A piece moved [dx] columns to the right. *)
Definition shifted (dx : Z) (p : Piece) : Piece :=
  mkPiece (p_x p + dx) (p_y p) (p_m p).

(** A matrix of three rows of three cells. *)
Definition is3x3 (m : Matrix) : Prop :=
  length m = 3%nat /\ Forall (fun row => length row = 3%nat) m.

(** The half turn of a matrix: rows bottom-up, each read right to left. *)
Definition rotate180 (m : Matrix) : Matrix := reverse (map reverse m).

(** [RotatePiece] applied [n] times, each time to the previous result. *)
Fixpoint rotateTimes (n : nat) (m : Matrix) : option Matrix :=
  match n with
  | O => Some m
  | S n' => m' ← RotatePiece m; rotateTimes n' m'
  end.

(** The square object a landing makes of a cell. *)
Definition squareOf (c : Z * Z * Color) : Square :=
  let '(x, y, b) := c in mkSquare x y b.

(** The flags and the player piece are the same in both states. *)
Definition same_control (s s' : State) : Prop :=
  _gameInPlay s' = _gameInPlay s /\ _gamePaused s' = _gamePaused s
  /\ _activePiece s' = _activePiece s /\ _pieceInPlay s' = _pieceInPlay s.

(** The square objects, the two lists that hold them and the collision rows
    are the same in both states. *)
Definition same_board (s s' : State) : Prop :=
  heap s' = heap s /\ _placedSquares s' = _placedSquares s
  /\ _fallingSquares s' = _fallingSquares s /\ _collisionRows s' = _collisionRows s.

(** The placed squares that are not on row [y], in the order of
    [_placedSquares]. *)
Definition offRow (y : Z) (s : State) : list ref :=
  List.filter (fun b => negb (sq_y (heap s !!! b) =? y)) (_placedSquares s).

(** Every reference of [l] points into the store. *)
Definition allocated (s : State) (l : list ref) : Prop :=
  Forall (fun b : ref => (b < length (heap s))%nat) l.

(** Every reference held by the falling list points into the store. *)
Definition falling_allocated (s : State) : Prop :=
  allocated s (_fallingSquares s).

(** [_pieceInPlay] tells whether [_activePiece] is a piece, and a piece is
    never above the board. *)
Definition piece_ok (s : State) : Prop :=
  match _activePiece s with
  | APiece p => _pieceInPlay s = true /\ 0 <= p_y p
  | APNull | APInit => _pieceInPlay s = false
  end.

(** What every state of a game satisfies. *)
Definition game_invariant (s : State) : Prop :=
  allocated s (_placedSquares s) /\ falling_allocated s /\ piece_ok s.

(** The square object behind a reference. *)
Definition squareAt (s : State) (b : ref) : Square := heap s !!! b.

(** Row [r] is cleared in [s]: its bitmask is zero and no placed square is
    on it. *)
Definition rowCleared (r : Z) (s : State) : Prop :=
  _collisionRows s !! r = Some 0
  /\ forall b, In b (_placedSquares s) -> sq_y (squareAt s b) <> r.

(** [releaseRow(y)] as the specification words it: the squares of row [y]
    leave the fixed set, the row's bitmask is zero, every fixed square above
    row [y] (a smaller row index) is on the falling list with its bit
    cleared, and every square below stays fixed, keeps its bit and is not on
    the falling list. *)
Definition releaseRow_as_specified (y : Z) (s : State) : Prop :=
  let s' := RemoveRow y s in
  (forall b, In b (_placedSquares s) -> sq_y (squareAt s b) = y ->
     ~ In b (_placedSquares s'))
  /\ _collisionRows s' !! y = Some 0
  /\ (forall b, In b (_placedSquares s) -> sq_y (squareAt s b) < y ->
       In b (_fallingSquares s')
       /\ ~ isFixed (sq_x (squareAt s b)) (sq_y (squareAt s b)) s')
  /\ (forall b, In b (_placedSquares s) -> y < sq_y (squareAt s b) ->
       In b (_placedSquares s') /\ squareAt s' b = squareAt s b
       /\ isFixed (sq_x (squareAt s b)) (sq_y (squareAt s b)) s'
       /\ ~ In b (_fallingSquares s')).

(** [scanAndClear] as the specification words it: the scan returns, and
    every row that is full when it begins is cleared when it ends. *)
Definition scanAndClear_as_specified (s : State) : Prop :=
  exists s', CheckForRowsCleared s = Some s'
  /\ forall r, 0 <= r < _boardHeight ->
       _collisionRows s !! r = Some _fullRowVal -> rowCleared r s'.

(** ** Concrete games *)

(** The same key pressed [n] times. *)
Definition keys (key : string) (n : nat) : list Event := repeat (KeyDown key) n.

(** A draw that selects the O piece, and one that selects the I piece. *)
Definition tickO : Event := Tick (1 # 2).
Definition tickI : Event := Tick 0.

(** An O piece is spawned by a tick, moved by [moves], and falls for [n]
    more ticks.  On an empty column it lands on the 19th of them. *)
Definition dropO (moves : list Event) (n : nat) : list Event :=
  [tickO] ++ moves ++ repeat tickO n.

(** Five O pieces dropped side by side, up to the tick on which the fifth
    is about to land. *)
Definition fiveO : list Event :=
  dropO (keys "ArrowLeft" 4) 19 ++ dropO (keys "ArrowLeft" 2) 19 ++ dropO [] 19
  ++ dropO (keys "ArrowRight" 2) 19 ++ dropO (keys "ArrowRight" 4) 18.

(** The four squares an O piece leaves with its top left cell at column [x]
    of row [y], in the order it lands them. *)
Definition oSquares (x y : Z) : list Square :=
  [mkSquare x y yellow; mkSquare (x + 1) y yellow;
   mkSquare x (y + 1) yellow; mkSquare (x + 1) (y + 1) yellow].

(** The board on which the fifth O piece has just landed: rows 20 and 21
    are both full. *)
Definition twoFullRows : State :=
  mkState true false
          (oSquares 0 20 ++ oSquares 2 20 ++ oSquares 4 20 ++ oSquares 6 20
           ++ oSquares 8 20)
          (seq 0 20) []
          (<[21 := 1023]> (<[20 := 1023]> (_collisionRows (StartGame loaded))))
          APNull false.

(** One O piece has landed in columns 4 and 5, and a second one has come
    down next to it, in columns 6 and 7 of rows 20 and 21; columns 8 and 9
    are empty. *)
Definition besideStack_game : list Event :=
  dropO [] 19 ++ dropO (keys "ArrowRight" 2) 18.

Definition besideStack : State :=
  mkState true false (oSquares 4 20) (seq 0 4) []
          (<[21 := 48]> (<[20 := 48]> (_collisionRows (StartGame loaded))))
          (APiece (mkPiece 5 19 (matrixOf oPiece))) true.

(** Ten O pieces dropped without a key press pile up in columns 4 and 5,
    from row 21 up to row 2. *)
Definition toppedOut : State :=
  mkState true false
          (flat_map (fun k => oSquares 4 (20 - 2 * k)) (seqZ 0 10))
          (seq 0 40) []
          (foldl (fun rows y => <[y := 48]> rows)
                 (_collisionRows (StartGame loaded)) (seqZ 2 20))
          APNull false.

(** An I piece laid on the floor in columns 0 to 3, an I piece stood on it
    in column 0, a second I piece laid in columns 4 to 7, and an O piece
    that has come down in columns 8 and 9 and lands on the next tick. *)
Definition tower_game : list Event :=
  [tickI] ++ keys "ArrowLeft" 3 ++ repeat tickI 20
  ++ [tickI; KeyDown "ArrowUp"] ++ keys "ArrowLeft" 5 ++ repeat tickI 17
  ++ [tickI] ++ keys "ArrowRight" 1 ++ repeat tickI 20
  ++ dropO (keys "ArrowRight" 4) 18.

(** ** The invariant of the collision index *)

(** The squares of [fixed] at column [c] of row [r]. *)
Definition squaresAt (s : State) (fixed : list ref) (c r : Z) : list ref :=
  List.filter (fun b => (sq_x (squareAt s b) =? c) && (sq_y (squareAt s b) =? r))
              fixed.

(** At [(c, r)] the index agrees with [fixed]: the bit is set exactly when
    one square of [fixed] is there, and no two squares are there. *)
Definition consistent_at (s : State) (fixed : list ref) (c r : Z) : bool :=
  let n := length (squaresAt s fixed c r) in
  Bool.eqb (JS.truthy (SquareFixedAt c r s)) (n =? 1)%nat && (n <=? 1)%nat.

Definition index_consistent (s : State) (fixed : list ref) : Prop :=
  forall c r, 0 <= c < _boardWidth -> 0 <= r < _boardHeight ->
    consistent_at s fixed c r = true.

(** The placed squares that are not on the falling list. *)
Definition settled (s : State) : list ref :=
  List.filter (fun b => negb (existsb (Nat.eqb b) (_fallingSquares s)))
              (_placedSquares s).

(** ** Shapes of piece matrices *)

(** A matrix of four rows of four cells. *)
Definition is4x4 (m : Matrix) : Prop :=
  length m = 4%nat /\ Forall (fun row => length row = 4%nat) m.

(** The number of truthy cells of a matrix. *)
Definition cellCount (m : Matrix) : nat :=
  list_sum (map (fun c : Cell => match c with Some _ => 1%nat | None => 0%nat end)
                (concat m)).

(** A square matrix of side 3 or 4 with four truthy cells. *)
Definition tetromino (m : Matrix) : Prop :=
  (is3x3 m \/ is4x4 m) /\ cellCount m = 4%nat.

(** ** States of a game, continued *)

(** The matrix of the active piece, if there is one, is a tetromino. *)
Definition piece_shape_ok (s : State) : Prop :=
  match _activePiece s with
  | APiece p => tetromino (p_m p)
  | APNull | APInit => True
  end.

(** A piece one row lower. *)
Definition lowered (p : Piece) : Piece := mkPiece (p_x p) (p_y p + 1) (p_m p).

(** A fresh board with an O piece in play at the top. *)
Definition oAtTop : State :=
  set_piece (APiece (mkPiece 3 1 (matrixOf oPiece))) true (StartGame loaded).

(** The three keys that read the active piece. *)
Definition arrowKey (key : string) : Prop :=
  key = "ArrowLeft"%string \/ key = "ArrowUp"%string \/ key = "ArrowRight"%string.

(** ** The life of a square *)

(** [sq'] is what gravity can make of [sq]: the same column and colour, a
    row that is not higher, and not below the last row if [sq] was not. *)
Definition square_fell (sq sq' : Square) : Prop :=
  sq_x sq' = sq_x sq /\ sq_color sq' = sq_color sq /\ sq_y sq <= sq_y sq'
  /\ (sq_y sq <= _boardHeight - 1 -> sq_y sq' <= _boardHeight - 1).

(** Every square of the store [h] is still in [h'], fallen at most.  The
    store keeps the objects the script has dropped from its lists, which the
    script can no longer reach. *)
Definition heap_advances (h h' : list Square) : Prop :=
  forall b sq, h !! b = Some sq ->
    exists sq', h' !! b = Some sq' /\ square_fell sq sq'.

(** The script still holds the square object [b]: it is on [_placedSquares]
    or on [_fallingSquares]. *)
Definition listed (b : ref) (s : State) : Prop :=
  In b (_placedSquares s) \/ In b (_fallingSquares s).

(** ** Drawing on the canvas *)

(** [Math.floor] *)
Definition Math_floor (q : Q) : Z := Qfloor q.

(** The canvas, as far as the script reads it: [_canvas.clientWidth] and
    [_canvas.clientHeight], which are integers. *)
Record Canvas : Set := mkCanvas { clientWidth : Z; clientHeight : Z }.

(** [Math.floor(_canvas.clientWidth/_boardWidth)] *)
Definition _squareWidth (cv : Canvas) : Z :=
  Math_floor (inject_Z (clientWidth cv) / inject_Z _boardWidth).

(** [Math.floor(_canvas.clientHeight/(_boardHeight-2))] *)
Definition _squareHeight (cv : Canvas) : Z :=
  Math_floor (inject_Z (clientHeight cv) / inject_Z (_boardHeight - 2)).

(** A call [fillRect(x, y, w, h)] with the fill style in force. *)
Record Rect : Set := mkRect { fillStyle : Color; rx : Z; ry : Z; rw : Z; rh : Z }.

(** [DrawBlock(b)]: the rectangle it fills. *)
Definition DrawBlock (cv : Canvas) (b : Square) : Rect :=
  mkRect (sq_color b)
         (sq_x b * _squareWidth cv) ((sq_y b - 2) * _squareHeight cv)
         (_squareWidth cv) (_squareHeight cv).

(** The rectangles [Draw()] fills after clearing the canvas, in order: one
    per placed square, then one per occupied cell of the active piece.
    [None] is the exception [Draw] raises on the initial [[]]. *)
Definition DrawCalls (cv : Canvas) (s : State) : option (list Rect) :=
  let placed := map (fun b => DrawBlock cv (heap s !!! b)) (_placedSquares s) in
  match _activePiece s with
  | APInit => None
  | APNull => Some placed
  | APiece p => Some (placed ++ map (fun c => DrawBlock cv (squareOf c)) (pieceCells p))
  end.

(** * Properties *)

(** ** 32-bit integers *)

Module Int32.

Import JS.

Lemma int32_range n : int32 n <-> - 2 ^ 31 <= n < 2 ^ 31.
Proof.
  unfold int32. rewrite Z.shiftr_div_pow2 by lia.
  pose proof (Z.div_mod n (2 ^ 31)) as Hdm.
  pose proof (Z.mod_pos_bound n (2 ^ 31)) as Hb.
  lia.
Qed.

Lemma ToInt32_int32 n : int32 (JS.ToInt32 n).
Proof.
  apply int32_range. unfold JS.ToInt32.
  pose proof (Z.mod_pos_bound (n + 2 ^ 31) (2 ^ 32)). lia.
Qed.

Lemma ToInt32_id n : int32 n -> JS.ToInt32 n = n.
Proof.
  intros H%int32_range. unfold JS.ToInt32.
  rewrite Z.mod_small; lia.
Qed.

Lemma ToInt32_opt_int32 v : int32 (JS.ToInt32_opt v).
Proof. destruct v; simpl; [apply ToInt32_int32 | by left]. Qed.

Lemma shl_int32 a b : int32 (JS.shl a b).
Proof. apply ToInt32_int32. Qed.

Lemma land_int32 a b : int32 a -> int32 b -> int32 (Z.land a b).
Proof.
  unfold int32. rewrite Z.shiftr_land.
  intros [-> | ->] [-> | ->]; simpl; auto.
Qed.

Lemma lor_int32 a b : int32 a -> int32 b -> int32 (Z.lor a b).
Proof.
  unfold int32. rewrite Z.shiftr_lor.
  intros [-> | ->] [-> | ->]; simpl; auto.
Qed.

(** [1 << x] is never zero. *)
Lemma shl_1_nonzero x : JS.shl 1 x <> 0.
Proof.
  unfold JS.shl. rewrite (ToInt32_id 1) by (apply int32_range; lia).
  rewrite Z.shiftl_1_l.
  pose proof (Z.mod_pos_bound x 32) as Hx.
  assert (Hle : 2 ^ (x mod 32) <= 2 ^ 31) by (apply Z.pow_le_mono_r; lia).
  assert (Hpos : 0 < 2 ^ (x mod 32)) by (apply Z.pow_pos_nonneg; lia).
  unfold JS.ToInt32.
  destruct (Z.eq_dec (2 ^ (x mod 32)) (2 ^ 31)) as [-> | Hne].
  - vm_compute. discriminate.
  - rewrite Z.mod_small; lia.
Qed.

End Int32.

(** ** The collision index *)

Section CollisionIndex.

Variable s : State.

Lemma FixSquareAt_row x y :
  _collisionRows (FixSquareAt x y s) !! y
  = Some (Z.lor (JS.ToInt32_opt (_collisionRows s !! y)) (JS.shl 1 x)).
Proof. unfold FixSquareAt, JS.or. simpl. apply lookup_insert_eq. Qed.

Lemma FixSquareAt_other_row x y y' :
  y <> y' ->
  _collisionRows (FixSquareAt x y s) !! y' = _collisionRows s !! y'.
Proof. intros Hne. unfold FixSquareAt. simpl. by apply lookup_insert_ne. Qed.

Lemma UnfixSquareAt_row x y :
  _collisionRows (UnfixSquareAt x y s) !! y
  = Some (Z.land (JS.ToInt32_opt (_collisionRows s !! y)) (JS.shl 1 x)).
Proof. unfold UnfixSquareAt, JS.and. simpl. apply lookup_insert_eq. Qed.

Lemma UnfixSquareAt_other_row x y y' :
  y <> y' ->
  _collisionRows (UnfixSquareAt x y s) !! y' = _collisionRows s !! y'.
Proof. intros Hne. unfold UnfixSquareAt. simpl. by apply lookup_insert_ne. Qed.

(** A fixed coordinate reads as fixed. *)
Lemma SquareFixedAt_FixSquareAt x y :
  JS.truthy (SquareFixedAt x y (FixSquareAt x y s)) = true.
Proof.
  unfold SquareFixedAt, JS.and, JS.truthy. rewrite FixSquareAt_row. simpl.
  rewrite Int32.ToInt32_id
    by (apply Int32.lor_int32; [apply Int32.ToInt32_opt_int32 | apply Int32.shl_int32]).
  rewrite negb_true_iff, Z.eqb_neq, Z.land_lor_distr_l, Z.land_diag, Z.lor_eq_0_iff.
  intros [_ Hbit]. by apply Int32.shl_1_nonzero in Hbit.
Qed.

(** Fixing a coordinate never makes another one read as free. *)
Lemma SquareFixedAt_FixSquareAt_mono x y x' y' :
  JS.truthy (SquareFixedAt x y s) = true ->
  JS.truthy (SquareFixedAt x y (FixSquareAt x' y' s)) = true.
Proof.
  unfold SquareFixedAt, JS.and, JS.truthy.
  destruct (Z.eq_dec y' y) as [-> | Hne].
  - rewrite FixSquareAt_row. simpl.
    rewrite Int32.ToInt32_id
      by (apply Int32.lor_int32; [apply Int32.ToInt32_opt_int32 | apply Int32.shl_int32]).
    rewrite !negb_true_iff, !Z.eqb_neq, Z.land_lor_distr_l, Z.lor_eq_0_iff.
    tauto.
  - by rewrite FixSquareAt_other_row.
Qed.

(** [UnfixSquareAt] masks the row with the bit itself, which leaves that
    bit as it was. *)
Lemma SquareFixedAt_UnfixSquareAt x y :
  SquareFixedAt x y (UnfixSquareAt x y s) = SquareFixedAt x y s.
Proof.
  unfold SquareFixedAt, JS.and. rewrite UnfixSquareAt_row. simpl.
  rewrite Int32.ToInt32_id
    by (apply Int32.land_int32; [apply Int32.ToInt32_opt_int32 | apply Int32.shl_int32]).
  by rewrite <- Z.land_assoc, Z.land_diag.
Qed.

End CollisionIndex.

(** C2, first half: for every board state and coordinate, [SquareFixedAt]
    is truthy right after [FixSquareAt] at the same coordinate. *)
Lemma fix_then_isFixed (s : State) (x y : Z) :
  JS.truthy (SquareFixedAt x y (FixSquareAt x y s)) = true.
Proof. apply SquareFixedAt_FixSquareAt. Qed.

(** C2: the claim says that [isFixed(x, y)] is false after [unfix(x, y)]
    whatever the bit was.  In the script [UnfixSquareAt] ANDs the row with
    [1 << x] instead of its complement: for every board state and every
    coordinate, a square that was fixed and is then unfixed still reads as
    fixed. *)
Theorem unfix_after_fix_still_fixed (s : State) (x y : Z) :
  JS.truthy (SquareFixedAt x y (UnfixSquareAt x y (FixSquareAt x y s))) = true.
Proof.
  rewrite SquareFixedAt_UnfixSquareAt. apply SquareFixedAt_FixSquareAt.
Qed.

(** The same on the board of a fresh game, at column 3 of row 4. *)
Example unfix_after_fix_started :
  let s := UnfixSquareAt 3 4 (FixSquareAt 3 4 (StartGame loaded)) in
  _collisionRows s !! 4 = Some 8 /\ SquareFixedAt 3 4 s = 8.
Proof. split; reflexivity. Qed.

(** ** Piece matrices *)

Lemma rowCells_In x y row x' y' c :
  In (x', y', c) (rowCells x y row) <->
  y' = y /\ exists j : nat, row !! j = Some (Some c) /\ x' = x + Z.of_nat j.
Proof.
  revert x. induction row as [| [c0 |] row IH]; intros x; simpl.
  - split; [tauto | intros [_ (j & Hj & _)]; by destruct j].
  - rewrite IH. split.
    + intros [Heq | [-> (j & Hj & ->)]].
      * inversion Heq; subst. split; [done |]. exists 0%nat. split; [done | lia].
      * split; [done |]. exists (S j). split; [done | lia].
    + intros [-> ([| j] & Hj & ->)]; simpl in Hj.
      * left. inversion Hj; subst. f_equal. f_equal. lia.
      * right. split; [done |]. exists j. split; [done | lia].
  - rewrite IH. split.
    + intros [-> (j & Hj & ->)]. split; [done |]. exists (S j). split; [done | lia].
    + intros [-> ([| j] & Hj & ->)]; simpl in Hj; [discriminate |].
      split; [done |]. exists j. split; [done | lia].
Qed.

Lemma matrixCells_In x y m x' y' c :
  In (x', y', c) (matrixCells x y m) <->
  exists (i j : nat) (row : list Cell),
    m !! i = Some row /\ row !! j = Some (Some c) /\
    x' = x + Z.of_nat j /\ y' = y + Z.of_nat i.
Proof.
  revert y. induction m as [| row m IH]; intros y; simpl.
  - split; [tauto | intros (i & j & r & Hi & _); by destruct i].
  - rewrite in_app_iff, rowCells_In, IH. split.
    + intros [[-> (j & Hj & ->)] | (i & j & r & Hi & Hj & -> & ->)].
      * exists 0%nat, j, row. repeat split; try done; lia.
      * exists (S i), j, r. repeat split; try done; lia.
    + intros ([| i] & j & r & Hi & Hj & -> & ->); simpl in Hi.
      * left. inversion Hi; subst. split; [lia |]. by exists j.
      * right. exists i, j, r. repeat split; try done; lia.
Qed.

(** The walk over the matrix reaches exactly the occupied cells. *)
Lemma pieceCells_occupied p x y c :
  In (x, y, c) (pieceCells p) <-> occupied p x y c.
Proof. apply matrixCells_In. Qed.

Lemma existsb_pieceCells (f : Z * Z * Color -> bool) p :
  existsb f (pieceCells p) = true <->
  exists x y c, occupied p x y c /\ f (x, y, c) = true.
Proof.
  rewrite existsb_exists. split.
  - intros ([[x y] c] & Hin & Hf). exists x, y, c. by rewrite <- pieceCells_occupied.
  - intros (x & y & c & Hocc & Hf). exists (x, y, c). by rewrite pieceCells_occupied.
Qed.

(** ** Piece selection *)

(** The draws that select template [k]. *)
Lemma pieceIndex_bounds (r : Q) (k : Z) :
  pieceIndex r = k
  <-> (inject_Z (2 * k - 1) / 12 <= r /\ r < inject_Z (2 * k + 1) / 12)%Q.
Proof.
  destruct r as [a b]. unfold pieceIndex, JS.Math_round, Qfloor, Qle, Qlt. simpl.
  change (Z.of_nat 7 - 1) with 6.
  replace (Z.pos (b * 1 * 2)) with (2 * Z.pos b) by lia.
  replace (a * 6 * 2 + 1 * Z.pos (b * 1)) with (12 * a + Z.pos b) by lia.
  change (Z.pos (1 * 12)) with 12.
  generalize (Pos2Z.is_pos b). generalize (Z.pos b). intros B HB.
  split.
  - intros <-.
    pose proof (Z.div_mod (12 * a + B) (2 * B)).
    pose proof (Z.mod_pos_bound (12 * a + B) (2 * B)). nia.
  - intros [H1 H2]. symmetry.
    apply (Z.div_unique _ _ _ (12 * a + B - 2 * B * k)); lia.
Qed.

(** C9: the claim says every shape is drawn with probability 1/7.  The
    script rounds [r * 6] to the nearest integer, so for every draw [r] and
    every index [k], shape [k] is selected exactly when
    [(2k-1)/12 <= r < (2k+1)/12]: within [[0, 1)] the first and the last
    template get an interval of length 1/12, the five in between 1/6 each. *)
Theorem pieceIndex_interval (r : Q) (k : Z) :
  pieceIndex r = k
  <-> (inject_Z (2 * k - 1) / 12 <= r /\ r < inject_Z (2 * k + 1) / 12)%Q.
Proof. apply pieceIndex_bounds. Qed.

(** A draw of 1/10 selects the second template, where seven equal intervals
    would select the first. *)
Example pieceIndex_tenth :
  pieceIndex (1 # 10) = 1 /\ Qfloor ((1 # 10) * 7) = 0.
Proof. split; reflexivity. Qed.

(** ** Spawning *)

(** [Math.round(_boardWidth/2)-2] *)
Lemma spawn_offset : JS.Math_round (inject_Z _boardWidth / 2) - 2 = 3.
Proof. reflexivity. Qed.

Lemma SpawnPiece_blocked piece s :
  (SpawnPiece piece s).1 = false <-> overlapsFixed (shifted 3 piece) s.
Proof.
  unfold SpawnPiece. rewrite spawn_offset. fold (shifted 3 piece).
  destruct (existsb _ _) eqn:Hex; simpl.
  - split; [intros _ | done].
    apply existsb_pieceCells in Hex as (x & y & c & Hocc & Hfix). by exists x, y, c.
  - split; [done | intros (x & y & c & Hocc & Hfix)].
    rewrite <- Hex. symmetry. apply existsb_pieceCells. by exists x, y, c.
Qed.

(** Every draw of [Math.random()], a number in [[0, 1)], yields a piece. *)
Lemma GenerateNewPiece_total (r : Q) :
  (0 <= r)%Q -> (r < 1)%Q -> exists piece, GenerateNewPiece r = Some piece.
Proof.
  intros H0 H1. unfold GenerateNewPiece.
  destruct (pieceIndex_bounds r (pieceIndex r)) as [Hk _].
  specialize (Hk eq_refl). revert Hk. generalize (pieceIndex r). intros k [Hlo Hhi].
  assert (Hrange : 0 <= k <= 6).
  { destruct r as [a b]. unfold Qle, Qlt in *. simpl in *.
    change (Z.pos (1 * 12)) with 12 in *. nia. }
  unfold index. destruct (k <? 0) eqn:Hk; [lia |].
  destruct (pieceTypes !! Z.to_nat k) as [t |] eqn:Ht; [by eexists |].
  apply lookup_ge_None in Ht. simpl in Ht. lia.
Qed.

(** What an assignment to [_activePiece] and [_pieceInPlay] leaves of the
    state. *)
Lemma set_piece_fields a inPlay s :
  _activePiece (set_piece a inPlay s) = a
  /\ _pieceInPlay (set_piece a inPlay s) = inPlay
  /\ _gameInPlay (set_piece a inPlay s) = _gameInPlay s
  /\ _gamePaused (set_piece a inPlay s) = _gamePaused s
  /\ same_board s (set_piece a inPlay s).
Proof. unfold same_board. split_and!; reflexivity. Qed.

(** What [SetGameOver] leaves of the state. *)
Lemma SetGameOver_fields s :
  _gameInPlay (SetGameOver s) = false
  /\ _gamePaused (SetGameOver s) = _gamePaused s
  /\ _activePiece (SetGameOver s) = _activePiece s
  /\ _pieceInPlay (SetGameOver s) = _pieceInPlay s
  /\ same_board s (SetGameOver s).
Proof. unfold same_board. split_and!; reflexivity. Qed.

(** C6: for every board state and every piece, spawning succeeds exactly
    when no occupied cell of the piece, moved three columns to the right,
    lies on a coordinate that the collision index reports as fixed.  On
    success the state [SpawnNewPiece] leaves has that piece as
    [_activePiece] and [_pieceInPlay] true, and is otherwise as before.  On
    failure [SpawnNewPiece] leaves the state as it was, and the tick that
    tried to spawn returns with [_gameInPlay] false and every other variable
    as it was: squares, both lists, collision rows, pause flag and piece. *)
Theorem spawn_iff_no_overlap (piece : Piece) (s : State) :
  ((SpawnPiece piece s).1 = true <-> ~ overlapsFixed (shifted 3 piece) s)
  /\ (~ overlapsFixed (shifted 3 piece) s ->
      exists s', SpawnPiece piece s = (true, s')
        /\ _activePiece s' = APiece (shifted 3 piece) /\ _pieceInPlay s' = true
        /\ _gameInPlay s' = _gameInPlay s /\ _gamePaused s' = _gamePaused s
        /\ same_board s s')
  /\ (overlapsFixed (shifted 3 piece) s ->
      SpawnPiece piece s = (false, s)
      /\ forall r : Q,
          GenerateNewPiece r = Some piece ->
          _gamePaused s = false -> _pieceInPlay s = false ->
          exists s', GameLoop r s = Some s'
            /\ _gameInPlay s' = false
            /\ _gamePaused s' = _gamePaused s
            /\ _activePiece s' = _activePiece s /\ _pieceInPlay s' = _pieceInPlay s
            /\ same_board s s').
Proof.
  pose proof (SpawnPiece_blocked piece s) as Hblocked.
  assert (Hshape : SpawnPiece piece s = (false, s)
                   \/ SpawnPiece piece s
                      = (true, set_piece (APiece (shifted 3 piece)) true s)).
  { unfold SpawnPiece. rewrite spawn_offset. fold (shifted 3 piece).
    destruct (existsb _ _); auto. }
  split; [| split].
  - rewrite <- Hblocked. destruct (SpawnPiece piece s).1; split; congruence.
  - intros Hfree. destruct Hshape as [Heq | Heq].
    + exfalso. apply Hfree, Hblocked. by rewrite Heq.
    + eexists. split; [exact Heq | apply set_piece_fields].
  - intros Hover. apply Hblocked in Hover.
    assert (Heq : SpawnPiece piece s = (false, s)).
    { destruct Hshape as [Heq | Heq]; [done |]. rewrite Heq in Hover. discriminate. }
    split; [done |].
    intros r Hgen Hrun Hnone. exists (SetGameOver s). split.
    + unfold GameLoop, SpawnNewPiece.
      rewrite Hrun, Hnone, Hgen. simpl. by rewrite Heq.
    + apply SetGameOver_fields.
Qed.

(** ** Rotation *)

Lemma RotatePiece_3x3 (a b c d e f g h i : Cell) :
  RotatePiece [[a; b; c]; [d; e; f]; [g; h; i]]
  = Some [[g; d; a]; [h; e; b]; [i; f; c]].
Proof. reflexivity. Qed.

Lemma is3x3_inv (m : Matrix) :
  is3x3 m -> exists a b c d e f g h i, m = [[a; b; c]; [d; e; f]; [g; h; i]].
Proof.
  intros [Hlen Hrows].
  destruct m as [| r0 [| r1 [| r2 [| ? ?]]]]; try discriminate.
  inversion Hrows as [| ? ? H0 Hrows1]; subst.
  inversion Hrows1 as [| ? ? H1 Hrows2]; subst.
  inversion Hrows2 as [| ? ? H2 _]; subst.
  destruct r0 as [| a [| b [| c [| ? ?]]]]; try discriminate.
  destruct r1 as [| d [| e [| f [| ? ?]]]]; try discriminate.
  destruct r2 as [| g [| h [| i [| ? ?]]]]; try discriminate.
  by exists a, b, c, d, e, f, g, h, i.
Qed.

(** C8: for every 3x3 matrix, four applications of [RotatePiece] give the
    matrix back, and two give its half turn (rows bottom-up, each row right
    to left). *)
Theorem RotatePiece_four_times (m : Matrix) :
  is3x3 m ->
  rotateTimes 4 m = Some m /\ rotateTimes 2 m = Some (rotate180 m).
Proof.
  intros (a & b & c & d & e & f & g & h & i & ->)%is3x3_inv.
  split; reflexivity.
Qed.

Lemma RotatePiece_four_times_witness :
  rotateTimes 4 (matrixOf tPiece) = Some (matrixOf tPiece)
  /\ rotateTimes 2 (matrixOf tPiece)
     = Some [[None; None; None];
             [Some purple; Some purple; Some purple];
             [None; Some purple; None]].
Proof.
  apply (RotatePiece_four_times (matrixOf tPiece)).
  split; [reflexivity | repeat constructor].
Defined.

(** ** Input without a piece *)

(** C10: when [_activePiece] is [null], as it is from a landing to the next
    spawn, moving sideways and rotating return normally and leave the whole
    state as it was. *)
Theorem input_without_piece (s : State) :
  _activePiece s = APNull ->
  MovePieceSideways true s = Some s
  /\ MovePieceSideways false s = Some s
  /\ HandleKeyInput "ArrowLeft" s = Some s
  /\ HandleKeyInput "ArrowRight" s = Some s
  /\ HandleKeyInput "ArrowUp" s = Some s.
Proof.
  intros Hnull.
  assert (Hmove : forall left, MovePieceSideways left s = Some s).
  { intros left. unfold MovePieceSideways. by rewrite Hnull. }
  repeat split; try apply Hmove.
  unfold HandleKeyInput. simpl. by rewrite Hnull.
Qed.

(** ** Gravity *)

Lemma isFixed_rows x y s s' :
  _collisionRows s' = _collisionRows s -> isFixed x y s -> isFixed x y s'.
Proof. unfold isFixed, SquareFixedAt. by intros ->. Qed.

Lemma same_control_refl s : same_control s s.
Proof. by repeat split. Qed.

Lemma same_control_trans s1 s2 s3 :
  same_control s1 s2 -> same_control s2 s3 -> same_control s1 s3.
Proof. unfold same_control. intros (? & ? & ? & ?) (? & ? & ? & ?). repeat split; congruence. Qed.

(** What one landing cell does to the state. *)
Lemma fixCell_spec s c :
  heap (fixCell s c) = heap s ++ [squareOf c]
  /\ _placedSquares (fixCell s c) = _placedSquares s ++ [length (heap s)]
  /\ _fallingSquares (fixCell s c) = _fallingSquares s
  /\ same_control s (fixCell s c)
  /\ (forall x y, isFixed x y s -> isFixed x y (fixCell s c))
  /\ isFixed c.1.1 c.1.2 (fixCell s c).
Proof.
  destruct c as [[x y] b]. unfold fixCell. simpl.
  split_and!; try done.
  - intros x' y' Hfix.
    apply (isFixed_rows x' y' (FixSquareAt x y s)); [done |].
    by apply SquareFixedAt_FixSquareAt_mono.
  - apply (isFixed_rows x y (FixSquareAt x y s)); [done |].
    apply SquareFixedAt_FixSquareAt.
Qed.

(** The landing loop: a fresh square per cell, pushed on the placed list in
    the order of the walk, and every bit that was or is now set stays set. *)
Lemma landing_spec cells s :
  let s' := foldl fixCell s cells in
  heap s' = heap s ++ map squareOf cells
  /\ _placedSquares s' = _placedSquares s ++ seq (length (heap s)) (length cells)
  /\ _fallingSquares s' = _fallingSquares s
  /\ same_control s s'
  /\ (forall x y, isFixed x y s -> isFixed x y s')
  /\ (forall x y c, In (x, y, c) cells -> isFixed x y s').
Proof.
  revert s. induction cells as [| c cells IH]; intros s; simpl.
  - rewrite !app_nil_r. split_and!; first [done | apply same_control_refl].
  - destruct (fixCell_spec s c) as (Hh & Hp & Hf & Hc & Hmono & Hbit).
    destruct (IH (fixCell s c)) as (Hh' & Hp' & Hf' & Hc' & Hmono' & Hbits').
    split_and!.
    + rewrite Hh', Hh. by rewrite <- app_assoc.
    + rewrite Hp', Hp, Hh, length_app. simpl.
      rewrite <- app_assoc. simpl. do 3 f_equal. lia.
    + congruence.
    + by eapply same_control_trans.
    + auto.
    + intros x y b [-> | Hin]; [apply Hmono', Hbit | eauto].
Qed.

(** What one falling square does to the state: it moves, in the store, or
    has its bit set; a square that moves stays on the list. *)
Lemma fallSquare_spec s still b s' still' :
  fallSquare (s, still) b = (s', still') ->
  length (heap s') = length (heap s)
  /\ (forall b', b' <> b -> heap s' !! b' = heap s !! b')
  /\ _placedSquares s' = _placedSquares s
  /\ _fallingSquares s' = _fallingSquares s
  /\ same_control s s'
  /\ (forall x y, isFixed x y s -> isFixed x y s')
  /\ (still' = still \/ still' = still ++ [b]).
Proof.
  unfold fallSquare.
  destruct (_ && _); intros [= <- <-]; simpl.
  - split_and!; try done; [apply length_insert | | auto].
    intros b' Hne. by apply list_lookup_insert_ne.
  - split_and!; try done; [| auto].
    intros x y Hfix. by apply SquareFixedAt_FixSquareAt_mono.
Qed.

Lemma foldl_fallSquare_spec l s still s' still' :
  foldl fallSquare (s, still) l = (s', still') ->
  length (heap s') = length (heap s)
  /\ (forall b, ~ In b l -> heap s' !! b = heap s !! b)
  /\ _placedSquares s' = _placedSquares s
  /\ _fallingSquares s' = _fallingSquares s
  /\ same_control s s'
  /\ (forall x y, isFixed x y s -> isFixed x y s')
  /\ (forall b, In b still' -> In b still \/ In b l).
Proof.
  revert s still. induction l as [| b l IH]; intros s still; cbn [foldl].
  - intros [= <- <-]. split_and!; first [done | apply same_control_refl | auto].
  - destruct (fallSquare (s, still) b) as [s1 still1] eqn:Hstep. intros Hfold.
    apply fallSquare_spec in Hstep as (Hlen & Hheap & Hp & Hf & Hc & Hmono & Hstill).
    apply IH in Hfold as (Hlen' & Hheap' & Hp' & Hf' & Hc' & Hmono' & Hstill').
    split_and!; try congruence.
    + intros b' Hnot. simpl in Hnot.
      rewrite Hheap' by tauto. apply Hheap. intros ->. tauto.
    + by eapply same_control_trans.
    + auto.
    + intros b' Hin. simpl. apply Hstill' in Hin as [Hin | Hin]; [| tauto].
      destruct Hstill as [-> | ->]; [tauto |].
      apply in_app_iff in Hin as [Hin | [-> | []]]; tauto.
Qed.

(** The second half of [ProcessGravity]. *)
Lemma fallSquares_spec s :
  let s' := fallSquares s in
  length (heap s') = length (heap s)
  /\ (forall b, ~ In b (_fallingSquares s) -> heap s' !! b = heap s !! b)
  /\ _placedSquares s' = _placedSquares s
  /\ same_control s s'
  /\ (forall x y, isFixed x y s -> isFixed x y s')
  /\ (forall b, In b (_fallingSquares s') -> In b (_fallingSquares s)).
Proof.
  unfold fallSquares.
  destruct (foldl fallSquare (s, []) (_fallingSquares s)) as [s1 still] eqn:Hfold.
  apply foldl_fallSquare_spec in Hfold as (Hlen & Hheap & Hp & Hf & Hc & Hmono & Hstill).
  simpl. split_and!; try done.
  intros b Hin. apply Hstill in Hin as [[] | Hin]. done.
Qed.

(** The walk finds a blocked cell exactly when some occupied cell sits on
    the last row or has a fixed coordinate right below. *)
Lemma blockedBelow_exists p s :
  existsb (blockedBelow s) (pieceCells p) = true <->
  exists x y c, occupied p x y c /\ (_boardHeight - 2 < y \/ isFixed x (y + 1) s).
Proof.
  rewrite existsb_pieceCells. unfold blockedBelow, isFixed.
  split; intros (x & y & c & Hocc & Hb); exists x, y, c; (split; [done |]).
  - apply orb_true_iff in Hb as [Hb | Hb]; [left; lia | by right].
  - apply orb_true_iff. destruct Hb as [Hb | Hb]; [left; lia | by right].
Qed.


(** ** Clearing rows *)

Lemma foldl_releaseSquare_spec j l s newBoard s' newBoard' :
  foldl (releaseSquare j) (s, newBoard) l = (s', newBoard') ->
  let kept := List.filter (fun b => negb (sq_y (heap s !!! b) =? j)) l in
  heap s' = heap s
  /\ _placedSquares s' = _placedSquares s
  /\ same_control s s'
  /\ newBoard' = newBoard ++ kept
  /\ _fallingSquares s' = _fallingSquares s ++ kept
  /\ (forall k, (forall b, In b l -> sq_y (heap s !!! b) = k -> k = j) ->
        _collisionRows s' !! k = _collisionRows s !! k).
Proof.
  revert s newBoard. induction l as [| b l IH]; intros s newBoard; cbn [foldl].
  - intros [= <- <-]. simpl. rewrite !app_nil_r.
    split_and!; first [done | apply same_control_refl].
  - destruct (releaseSquare j (s, newBoard) b) as [s1 newBoard1] eqn:Hstep.
    intros Hfold. apply IH in Hfold. revert Hfold.
    unfold releaseSquare in Hstep. cbn [List.filter].
    destruct (sq_y (heap s !!! b) =? j) eqn:Hrow; injection Hstep as <- <-;
      cbn [negb].
    + intros (Hh & Hp & Hc & Hnb & Hf & Hrows).
      split_and!; try done.
      intros k Hk. apply Hrows. intros b' Hin. apply Hk. by right.
    + cbn [heap set_falling UnfixSquareAt set_rows _placedSquares _fallingSquares].
      intros (Hh & Hp & Hc & Hnb & Hf & Hrows).
      split_and!; try done.
      * rewrite Hnb, <- app_assoc. done.
      * rewrite Hf, <- app_assoc. done.
      * intros k Hk. rewrite Hrows by (intros b' Hin; apply Hk; by right).
        cbn [_collisionRows]. apply lookup_insert_ne.
        intros Heq. apply Z.eqb_neq in Hrow. apply Hrow.
        rewrite <- (Hk b); [done | by left | done].
Qed.

(** What [RemoveRow] does: the row is zeroed, its squares leave
    [_placedSquares], every other placed square stays there and is appended
    to [_fallingSquares], and a row that holds no placed square keeps its
    value. *)
Lemma RemoveRow_spec j s :
  let s' := RemoveRow j s in
  heap s' = heap s
  /\ same_control s s'
  /\ _placedSquares s' = offRow j s
  /\ _fallingSquares s' = _fallingSquares s ++ offRow j s
  /\ _collisionRows s' !! j = Some 0
  /\ (forall k, k <> j ->
        (forall b, In b (_placedSquares s) -> sq_y (heap s !!! b) <> k) ->
        _collisionRows s' !! k = _collisionRows s !! k).
Proof.
  unfold RemoveRow.
  destruct (foldl _ _ _) as [s1 newBoard] eqn:Hfold.
  apply foldl_releaseSquare_spec in Hfold
    as (Hh & Hp & Hc & Hnb & Hf & Hrows).
  cbn [heap set_rows _placedSquares _fallingSquares _collisionRows] in *.
  cbn [heap set_placed _placedSquares _fallingSquares _collisionRows].
  split; [done |]. split; [exact Hc |]. split; [done |]. split; [done |]. split.
  - rewrite Hrows; [apply lookup_insert_eq | done].
  - intros k Hne Hnone. rewrite Hrows.
    + by apply lookup_insert_ne.
    + intros b Hin Hk. by apply Hnone in Hin.
Qed.

Lemma offRow_In j s b :
  In b (offRow j s) <-> In b (_placedSquares s) /\ sq_y (heap s !!! b) <> j.
Proof.
  unfold offRow. rewrite filter_In, negb_true_iff, Z.eqb_neq. tauto.
Qed.

(** ** Concrete games *)

(** [twoFullRows] is the state in which the row scan starts on the tick
    that lands the fifth O piece. *)
Lemma twoFullRows_reached :
  exists pg,
    run fiveO started = Some pg
    /\ ProcessGravity (state pg) = Some twoFullRows
    /\ GameLoop (1 # 2) (state pg) = CheckForRowsCleared twoFullRows.
Proof. eexists. split; [vm_compute; reflexivity |]. split; vm_compute; reflexivity. Qed.

(** C3, as stated, fails on the board with rows 20 and 21 full when row 20
    is released: the squares of row 21, which lies below, are put on the
    falling list. *)
Lemma releaseRow_as_specified_fails :
  ~ releaseRow_as_specified 20 twoFullRows.
Proof.
  intros (_ & _ & _ & Hbelow).
  destruct (Hbelow 2%nat) as (_ & _ & _ & Hnot).
  - vm_compute. tauto.
  - reflexivity.
  - apply Hnot. vm_compute. tauto.
Qed.

(** C3, amended: for every board state and every row index [y],
    [RemoveRow(y)] takes exactly the squares of row [y] out of
    [_placedSquares], sets the bitmask of row [y] to zero, and appends every
    other placed square, whether its row is above or below [y], to
    [_fallingSquares] while keeping it in [_placedSquares]; no square
    object changes. *)
Theorem RemoveRow_releases_every_other_row (y : Z) (s : State) :
  let s' := RemoveRow y s in
  (forall b, In b (_placedSquares s') <->
             In b (_placedSquares s) /\ sq_y (squareAt s b) <> y)
  /\ _collisionRows s' !! y = Some 0
  /\ _fallingSquares s' = _fallingSquares s ++ _placedSquares s'
  /\ heap s' = heap s.
Proof.
  destruct (RemoveRow_spec y s) as (Hh & _ & Hp & Hf & Hrow & _).
  simpl. split_and!.
  - intros b. rewrite Hp. apply offRow_In.
  - done.
  - by rewrite Hf, Hp.
  - done.
Qed.

(** The scan passes over rows that are not full. *)
Lemma scanRows_none_full n i s :
  (forall k, i <= k < i + Z.of_nat n -> rowIsFull k s = false) ->
  scanRows n i s = Some s.
Proof.
  revert i. induction n as [| n IH]; intros i Hnone; [done |].
  cbn [scanRows]. rewrite Hnone by lia. simpl.
  apply IH. intros k Hk. apply Hnone. lia.
Qed.

Lemma scanRows_app n m i s :
  scanRows (n + m) i s = scanRows n i s ≫= scanRows m (i + Z.of_nat n).
Proof.
  revert i s. induction n as [| n IH]; intros i s.
  - simpl. by rewrite Z.add_0_r.
  - cbn [Nat.add scanRows].
    destruct (if rowIsFull i s then _ else _) as [s1 |]; simpl; [| done].
    rewrite IH. do 2 f_equal. lia.
Qed.

Lemma rowIsFull_true i s :
  rowIsFull i s = true <-> _collisionRows s !! i = Some _fullRowVal.
Proof.
  unfold rowIsFull. destruct (_collisionRows s !! i) as [v |]; [| done].
  rewrite Z.eqb_eq. split; congruence.
Qed.

(** Releasing any row keeps a cleared row cleared. *)
Lemma RemoveRow_keeps_cleared r j s :
  rowCleared r s -> rowCleared r (RemoveRow j s).
Proof.
  intros [Hzero Hnone].
  destruct (RemoveRow_spec j s) as (Hh & _ & Hp & _ & Hrow & Hrows).
  split.
  - destruct (Z.eq_dec r j) as [-> | Hne]; [done |].
    rewrite Hrows; [done | done |]. intros b Hin. by apply Hnone.
  - intros b. unfold squareAt. rewrite Hh, Hp, offRow_In.
    intros [Hin _]. by apply Hnone.
Qed.

(** Once a row is cleared the rest of the scan returns and leaves it so. *)
Lemma scanRows_keeps_cleared r n i s :
  _activePiece s <> APInit -> rowCleared r s ->
  exists s', scanRows n i s = Some s' /\ rowCleared r s'.
Proof.
  revert i s. induction n as [| n IH]; intros i s Hdraw Hclr; [by exists s |].
  cbn [scanRows]. destruct (rowIsFull i s).
  - destruct (RemoveRow_spec i s) as (_ & (_ & _ & Hap & _) & _).
    assert (Hdraw' : _activePiece (RemoveRow i s) <> APInit) by by rewrite Hap.
    unfold Draw. destruct (_activePiece (RemoveRow i s)) eqn:Ha; [done | |];
      simpl; apply IH; try apply RemoveRow_keeps_cleared; try done; by rewrite Ha.
  - simpl. by apply IH.
Qed.

(** C7, as stated, fails on the board with rows 20 and 21 full: the scan
    clears row 20 only, and the squares of row 21 stay placed. *)
Lemma scanAndClear_as_specified_fails : ~ scanAndClear_as_specified twoFullRows.
Proof.
  intros (s' & Hscan & Hfull).
  assert (Hrow : 0 <= 21 < _boardHeight) by (unfold _boardHeight; lia).
  assert (Hfull21 : _collisionRows twoFullRows !! 21 = Some _fullRowVal)
    by (vm_compute; reflexivity).
  destruct (Hfull 21 Hrow Hfull21) as [_ Hnone].
  assert (Hin : In 2%nat (_placedSquares s')).
  { vm_compute in Hscan. injection Hscan as <-. vm_compute. tauto. }
  apply (Hnone 2%nat Hin).
  vm_compute in Hscan. injection Hscan as <-. vm_compute. reflexivity.
Qed.

(** C7, amended: for every board state in which the scan can draw, a single
    [CheckForRowsCleared] returns and clears the first full row, that is the
    row [r] of the board whose bitmask equals [2^_boardWidth - 1] when the
    scan begins while no row of smaller index does: row [r] ends with
    bitmask 0 and none of its squares in [_placedSquares]. *)
Theorem scan_clears_first_full_row (s : State) (r : Z) :
  _activePiece s <> APInit ->
  0 <= r < _boardHeight ->
  _collisionRows s !! r = Some _fullRowVal ->
  (forall k, 0 <= k < r -> _collisionRows s !! k <> Some _fullRowVal) ->
  exists s', CheckForRowsCleared s = Some s' /\ rowCleared r s'.
Proof.
  intros Hdraw Hr Hfull Hfirst. unfold CheckForRowsCleared.
  replace (Z.to_nat _boardHeight)
    with (Z.to_nat r + S (Z.to_nat (_boardHeight - r - 1)))%nat by lia.
  rewrite scanRows_app, scanRows_none_full.
  - cbn [mbind option_bind scanRows].
    replace (0 + Z.of_nat (Z.to_nat r)) with r by lia.
    apply rowIsFull_true in Hfull. rewrite Hfull.
    destruct (RemoveRow_spec r s) as (Hh & (_ & _ & Hap & _) & Hp & _ & Hrow & _).
    assert (Hdraw' : _activePiece (RemoveRow r s) <> APInit) by by rewrite Hap.
    assert (Hclr : rowCleared r (RemoveRow r s)).
    { split; [done |]. intros b. unfold squareAt. rewrite Hh, Hp, offRow_In. tauto. }
    unfold Draw. destruct (_activePiece (RemoveRow r s)) eqn:Ha; [done | |];
      simpl; apply scanRows_keeps_cleared; try done; by rewrite Ha.
  - intros k Hk. destruct (rowIsFull k s) eqn:Hf; [| done].
    apply rowIsFull_true in Hf. exfalso. apply (Hfirst k); [lia | done].
Qed.

(** The boards used below are positions of real games. *)
Lemma besideStack_reached :
  run besideStack_game started = Some (mkPage true besideStack).
Proof. vm_compute. reflexivity. Qed.

Lemma toppedOut_reached :
  run (repeat tickO 110) started = Some (mkPage true toppedOut).
Proof. vm_compute. reflexivity. Qed.

(** ** Moving sideways *)

(** The walk finds a blocking cell exactly when some occupied cell is at the
    wall it moves to, or has a fixed coordinate on either side. *)
Lemma blockedSideways_exists left p s :
  existsb (blockedSideways left s) (pieceCells p) = true <->
  exists x y c, occupied p x y c
    /\ ((left = true /\ x = 0) \/ isFixed (x - 1) y s
        \/ (left = false /\ x = _boardWidth - 1) \/ isFixed (x + 1) y s).
Proof.
  rewrite existsb_pieceCells. unfold blockedSideways, isFixed.
  split; intros (x & y & c & Hocc & Hb); exists x, y, c; (split; [done |]).
  - destruct left, (x =? 0) eqn:H0, (x =? _boardWidth - 1) eqn:H9,
      (JS.truthy (SquareFixedAt (x - 1) y s)),
      (JS.truthy (SquareFixedAt (x + 1) y s));
      simpl in Hb; try discriminate; try (apply Z.eqb_eq in H0);
      try (apply Z.eqb_eq in H9); auto.
  - destruct Hb as [[-> ->] | [-> | [[-> ->] | Hb]]]; simpl.
    + done.
    + by rewrite orb_true_r.
    + by destruct (JS.truthy _).
    + rewrite Hb. rewrite orb_true_r. by destruct (_ || _).
Qed.

(** A sideways move is all or nothing: the state is left as it was, or the
    piece is the same piece one column over. *)
Lemma MovePieceSideways_spec left s p :
  _activePiece s = APiece p ->
  MovePieceSideways left s
  = Some (if existsb (blockedSideways left s) (pieceCells p) then s
          else set_piece (APiece (shifted (if left then -1 else 1) p))
                         (_pieceInPlay s) s).
Proof.
  intros Ha. unfold MovePieceSideways. rewrite Ha.
  by destruct (existsb _ _).
Qed.

(** C5: the claim lets a piece move whenever nothing blocks it on the side
    it moves to.  In the script the test for a fixed neighbour is not under
    the [moveLeft] guard, so a fixed square on either side aborts the move.
    [besideStack] is reached by [besideStack_game]; the active O piece fills
    columns 6 and 7 of rows 20 and 21, nothing is fixed in column 8 and the
    board ends at column 9, yet moving right leaves the piece where it is. *)
Theorem move_right_blocked_from_the_left :
  run besideStack_game started = Some (mkPage true besideStack)
  /\ pieceCells (mkPiece 5 19 (matrixOf oPiece))
     = [(6, 20, yellow); (7, 20, yellow); (6, 21, yellow); (7, 21, yellow)]
  /\ Forall (fun '(x, y, _) =>
               x + 1 <= _boardWidth - 1 /\ SquareFixedAt (x + 1) y besideStack = 0)
            (pieceCells (mkPiece 5 19 (matrixOf oPiece)))
  /\ SquareFixedAt 5 20 besideStack = 32
  /\ MovePieceSideways false besideStack = Some besideStack
  /\ HandleKeyInput "ArrowRight" besideStack = Some besideStack.
Proof.
  split; [apply besideStack_reached |].
  split; [reflexivity |].
  split.
  { change (pieceCells (mkPiece 5 19 (matrixOf oPiece)))
      with [(6, 20, yellow); (7, 20, yellow); (6, 21, yellow); (7, 21, yellow)].
    repeat (constructor; [split; [unfold _boardWidth; lia | vm_compute; reflexivity] |]).
    constructor. }
  split; [reflexivity |].
  split; vm_compute; reflexivity.
Qed.

(** ** The invariant of the collision index *)

Lemma index_consistent_check s fixed :
  forallb (fun r => forallb (consistent_at s fixed r)
                            (map Z.of_nat (seq 0 (Z.to_nat _boardHeight))))
          (map Z.of_nat (seq 0 (Z.to_nat _boardWidth))) = true ->
  index_consistent s fixed.
Proof.
  intros Hall c r Hc Hr.
  rewrite forallb_forall in Hall.
  specialize (Hall c). rewrite forallb_forall in Hall. apply Hall.
  - apply in_map_iff. exists (Z.to_nat c). split; [lia |]. apply in_seq. lia.
  - apply in_map_iff. exists (Z.to_nat r). split; [lia |]. apply in_seq. lia.
Qed.

(** C1: the claim makes the agreement of the collision index with the fixed
    squares an invariant of every operation.  In [tower_game] it holds when
    the last piece is about to land; the tick that lands it fills row 21 and
    releases it, and afterwards the index disagrees with the board whichever
    way the fixed squares are read.  Read as [_placedSquares]: a placed
    square is at column 0 of row 20 and that bit is clear.  Read as the
    placed squares that are not falling: the bit of column 0 of row 17 is
    set and no such square is there. *)
Theorem row_clear_breaks_index :
  exists pg pg',
    run tower_game started = Some pg
    /\ deliver tickO pg = Some pg'
    /\ _fallingSquares (state pg) = []
    /\ index_consistent (state pg) (_placedSquares (state pg))
    /\ consistent_at (state pg') (_placedSquares (state pg')) 0 20 = false
    /\ consistent_at (state pg') (settled (state pg')) 0 17 = false
    /\ ~ index_consistent (state pg') (_placedSquares (state pg'))
    /\ ~ index_consistent (state pg') (settled (state pg')).
Proof.
  eexists. eexists.
  split; [vm_compute; reflexivity |].
  split; [vm_compute; reflexivity |].
  split; [vm_compute; reflexivity |].
  split; [apply index_consistent_check; vm_compute; reflexivity |].
  assert (H20 : 0 <= 20 < _boardHeight) by (unfold _boardHeight; lia).
  assert (H17 : 0 <= 17 < _boardHeight) by (unfold _boardHeight; lia).
  assert (H0 : 0 <= 0 < _boardWidth) by (unfold _boardWidth; lia).
  split; [vm_compute; reflexivity |].
  split; [vm_compute; reflexivity |].
  split; intros Hcons.
  - specialize (Hcons 0 20 H0 H20). vm_compute in Hcons. discriminate.
  - specialize (Hcons 0 17 H0 H17). vm_compute in Hcons. discriminate.
Qed.

(** ** Every state of a game *)

Lemma piece_ok_same_control s s' : same_control s s' -> piece_ok s -> piece_ok s'.
Proof. unfold piece_ok. by intros (_ & _ & -> & ->). Qed.

Lemma allocated_mono s s' l :
  (length (heap s) <= length (heap s'))%nat -> allocated s l -> allocated s' l.
Proof.
  unfold allocated. intros Hle Hl.
  eapply Forall_impl; [exact Hl |]. intros b Hb. simpl in *. lia.
Qed.

Lemma allocated_incl s l l' :
  (forall b, In b l' -> In b l) -> allocated s l -> allocated s l'.
Proof.
  unfold allocated. rewrite !Forall_forall. intros Hincl Hl b Hin.
  apply Hl, list_elem_of_In, Hincl, list_elem_of_In, Hin.
Qed.

Lemma started_invariant : game_invariant (StartGame loaded).
Proof. split_and!; [constructor | constructor | reflexivity]. Qed.

Lemma dropPiece_invariant p s :
  _activePiece s = APiece p -> game_invariant s ->
  game_invariant (dropPiece p s) /\ _activePiece (dropPiece p s) <> APInit.
Proof.
  intros Hactive (Hplaced & Hfalling & Hpiece).
  unfold piece_ok in Hpiece. rewrite Hactive in Hpiece. destruct Hpiece as [Hplay Hy].
  unfold dropPiece. destruct (negb _).
  - split; [| done]. split_and!; [done | done |].
    unfold piece_ok. simpl. split; [done | lia].
  - split; [| done].
    destruct (landing_spec (pieceCells p) s) as (Hh & Hp & Hf & _).
    assert (Hlen : length (heap (foldl fixCell s (pieceCells p)))
                   = (length (heap s) + length (pieceCells p))%nat)
      by (by rewrite Hh, length_app, length_map).
    split_and!.
    + unfold allocated. cbn [set_piece heap _placedSquares]. rewrite Hp.
      apply Forall_app. split.
      * apply (allocated_mono s); [| done]. cbn [heap]. lia.
      * apply Forall_forall. intros b Hin%list_elem_of_In%in_seq. lia.
    + unfold falling_allocated. cbn [set_piece _fallingSquares]. rewrite Hf.
      apply (allocated_mono s); [| done]. cbn [heap set_piece]. lia.
    + reflexivity.
Qed.

Lemma fallSquares_invariant s : game_invariant s -> game_invariant (fallSquares s).
Proof.
  intros (Hplaced & Hfalling & Hpiece).
  destruct (fallSquares_spec s) as (Hlen & _ & Hp & Hc & _ & Hsub).
  split_and!.
  - rewrite Hp. apply (allocated_mono s); [lia | done].
  - apply (allocated_mono s); [lia |]. by apply (allocated_incl s (_fallingSquares s)).
  - by apply (piece_ok_same_control s).
Qed.

Lemma RemoveRow_invariant j s : game_invariant s -> game_invariant (RemoveRow j s).
Proof.
  intros (Hplaced & Hfalling & Hpiece).
  destruct (RemoveRow_spec j s) as (Hh & Hc & Hp & Hf & _).
  assert (Hoff : allocated s (offRow j s)).
  { apply (allocated_incl s (_placedSquares s)); [| done].
    intros b Hin. by apply offRow_In in Hin as [Hin _]. }
  split_and!.
  - rewrite Hp. apply (allocated_mono s); [by rewrite Hh | done].
  - unfold falling_allocated. rewrite Hf.
    apply (allocated_mono s); [by rewrite Hh |]. by apply Forall_app.
  - by apply (piece_ok_same_control s).
Qed.

Lemma scanRows_invariant n i s s' :
  game_invariant s -> scanRows n i s = Some s' -> game_invariant s'.
Proof.
  revert i s. induction n as [| n IH]; intros i s Hinv; cbn [scanRows].
  - by intros [= <-].
  - destruct (rowIsFull i s).
    + destruct (Draw (RemoveRow i s)); [| done]. simpl.
      apply IH. by apply RemoveRow_invariant.
    + simpl. by apply IH.
Qed.

(** The scan returns whenever it can draw. *)
Lemma scanRows_total n i s :
  _activePiece s <> APInit -> exists s', scanRows n i s = Some s'.
Proof.
  revert i s. induction n as [| n IH]; intros i s Hdraw; cbn [scanRows].
  - by exists s.
  - destruct (rowIsFull i s); simpl; [| by apply IH].
    destruct (RemoveRow_spec i s) as (_ & (_ & _ & Hap & _) & _).
    unfold Draw. destruct (_activePiece (RemoveRow i s)) eqn:Ha;
      [congruence | |]; simpl; apply IH; by rewrite Ha.
Qed.

Lemma SpawnPiece_invariant piece s :
  0 <= p_y piece -> game_invariant s ->
  game_invariant (SpawnPiece piece s).2
  /\ ((SpawnPiece piece s).1 = true ->
      exists p, _activePiece (SpawnPiece piece s).2 = APiece p).
Proof.
  intros Hy Hinv. unfold SpawnPiece. destruct (existsb _ _); simpl.
  - split; [done | discriminate].
  - destruct Hinv as (Hplaced & Hfalling & _).
    split; [by split_and! | by eexists].
Qed.

(** A tick takes a state of a game to a state of a game. *)
Lemma GameLoop_invariant r s s' :
  game_invariant s -> GameLoop r s = Some s' -> game_invariant s'.
Proof.
  intros Hinv. unfold GameLoop.
  destruct (_gamePaused s); [by intros [= <-] |].
  assert (Hrest : forall s1 p, _activePiece s1 = APiece p -> game_invariant s1 ->
            (_ ← Draw s1; s2 ← ProcessGravity s1; CheckForRowsCleared s2) = Some s' ->
            game_invariant s').
  { intros s1 p Ha Hinv1. unfold Draw, ProcessGravity. rewrite Ha. simpl.
    apply scanRows_invariant, fallSquares_invariant.
    by apply dropPiece_invariant. }
  destruct (_pieceInPlay s) eqn:Hplay; simpl.
  - pose proof Hinv as (_ & _ & Hpiece). unfold piece_ok in Hpiece.
    destruct (_activePiece s) as [| | p] eqn:Ha; try congruence.
    by apply (Hrest s p).
  - unfold SpawnNewPiece, GenerateNewPiece.
    destruct (index pieceTypes (pieceIndex r)) as [t |]; [| done]. simpl.
    destruct (SpawnPiece_invariant (mkPiece 0 0 (matrixOf t)) s) as [Hinv1 Hp];
      [done | done |].
    destruct (SpawnPiece _ s) as [[|] s1]; simpl in *.
    + destruct Hp as [p Hp]; [done |]. by apply (Hrest s1 p).
    + intros [= <-]. destruct Hinv1 as (? & ? & ?). by split_and!.
Qed.

(** A tick never raises in a state of a game. *)
Lemma GameLoop_total r s :
  game_invariant s -> (0 <= r)%Q -> (r < 1)%Q -> exists s', GameLoop r s = Some s'.
Proof.
  intros Hinv Hr0 Hr1. unfold GameLoop.
  destruct (_gamePaused s); [by eexists |].
  assert (Hrest : forall s1 p, _activePiece s1 = APiece p -> game_invariant s1 ->
            exists s', (_ ← Draw s1; s2 ← ProcessGravity s1; CheckForRowsCleared s2)
                       = Some s').
  { intros s1 p Ha Hinv1. unfold Draw, ProcessGravity. rewrite Ha. simpl.
    apply scanRows_total.
    destruct (fallSquares_spec (dropPiece p s1)) as (_ & _ & _ & (_ & _ & -> & _) & _).
    by apply dropPiece_invariant. }
  destruct (_pieceInPlay s) eqn:Hplay; simpl.
  - pose proof Hinv as (_ & _ & Hpiece). unfold piece_ok in Hpiece.
    destruct (_activePiece s) as [| | p] eqn:Ha; try congruence.
    by apply (Hrest s p).
  - unfold SpawnNewPiece.
    destruct (GenerateNewPiece_total r Hr0 Hr1) as [piece Hgen]. rewrite Hgen. simpl.
    assert (Hy : 0 <= p_y piece).
    { unfold GenerateNewPiece in Hgen.
      destruct (index pieceTypes (pieceIndex r)); [| done].
      simpl in Hgen. by injection Hgen as <-. }
    destruct (SpawnPiece_invariant piece s Hy Hinv) as [Hinv1 Hp].
    destruct (SpawnPiece piece s) as [[|] s1]; simpl in *; [| by eexists].
    destruct Hp as [p Hp]; [done |]. by apply (Hrest s1 p).
Qed.

Lemma MovePieceSideways_invariant left s s' :
  game_invariant s -> MovePieceSideways left s = Some s' -> game_invariant s'.
Proof.
  intros Hinv. unfold MovePieceSideways.
  destruct (_activePiece s) as [| | p] eqn:Ha; [done | by intros [= <-] |].
  destruct (existsb _ _); [by intros [= <-] |].
  simpl. intros [= <-].
  destruct Hinv as (? & ? & Hpiece). unfold piece_ok in Hpiece. rewrite Ha in Hpiece.
  by split_and!.
Qed.

(** A key press takes a state of a game to a state of a game. *)
Lemma HandleKeyInput_invariant key s s' :
  game_invariant s -> HandleKeyInput key s = Some s' -> game_invariant s'.
Proof.
  intros Hinv. unfold HandleKeyInput.
  destruct (String.eqb key "ArrowLeft"); [by apply MovePieceSideways_invariant |].
  destruct (String.eqb key "ArrowUp").
  { destruct (_activePiece s) as [| | p] eqn:Ha; [done | by intros [= <-] |].
    destruct (RotatePiece (p_m p)); [| done]. simpl. intros [= <-].
    destruct Hinv as (? & ? & Hpiece). unfold piece_ok in Hpiece. rewrite Ha in Hpiece.
    by split_and!. }
  destruct (String.eqb key "ArrowRight"); [by apply MovePieceSideways_invariant |].
  destruct (String.eqb key "p"); intros [= <-]; [| done].
  destruct Hinv as (? & ? & ?). by split_and!.
Qed.

Lemma run_invariant es pg pg' :
  game_invariant (state pg) -> run es pg = Some pg' -> game_invariant (state pg').
Proof.
  revert pg. induction es as [| e es IH]; intros pg Hinv; cbn [run].
  - by intros [= <-].
  - destruct (deliver e pg) as [pg1 |] eqn:Hstep; [| done]. simpl.
    apply IH. destruct e as [r | key]; simpl in Hstep.
    + unfold onInterval in Hstep. destruct (interval pg).
      * destruct (GameLoop r (state pg)) as [s1 |] eqn:Hloop; [| done].
        simpl in Hstep. injection Hstep as <-. by apply (GameLoop_invariant r (state pg)).
      * by injection Hstep as <-.
    + destruct (HandleKeyInput key (state pg)) as [s1 |] eqn:Hkey; [| done].
      simpl in Hstep. injection Hstep as <-.
      by apply (HandleKeyInput_invariant key (state pg)).
Qed.

(** Every state a started game reaches is a state of a game: the placed and
    the falling list hold allocated squares and the active piece, if there
    is one, has a row that is not negative. *)
Lemma reached_invariant es pg :
  run es started = Some pg -> game_invariant (state pg).
Proof. apply run_invariant, started_invariant. Qed.

(** ** Witnesses *)

Lemma foldl_insert_zero (l : list Z) (rows : gmap Z Z) (k : Z) :
  foldl (fun rows i => <[i := 0]> rows) rows l !! k
  = if decide (k ∈ l) then Some 0 else rows !! k.
Proof.
  revert rows. induction l as [| i l IH]; intros rows; cbn [foldl].
  - rewrite decide_False; [done | apply not_elem_of_nil].
  - rewrite IH. destruct (decide (k ∈ l)) as [Hin | Hnot].
    + rewrite decide_True; [done | rewrite elem_of_cons; by right].
    + destruct (Z.eq_dec i k) as [-> | Hne].
      * rewrite lookup_insert_eq, decide_True; [done | rewrite elem_of_cons; by left].
      * rewrite lookup_insert_ne by done.
        rewrite decide_False; [done |]. rewrite elem_of_cons. intros [? | ?]; done.
Qed.

(** [StartGame] leaves every row of the board at zero. *)
Lemma StartGame_rows (k : Z) :
  0 <= k < _boardHeight -> _collisionRows (StartGame loaded) !! k = Some 0.
Proof.
  intros Hk. unfold StartGame. cbn [_collisionRows set_rows].
  rewrite foldl_insert_zero, decide_True; [done |].
  apply elem_of_seqZ. lia.
Qed.


Lemma spawn_iff_no_overlap_witness :
  SpawnPiece (mkPiece 0 0 (matrixOf oPiece)) toppedOut = (false, toppedOut)
  /\ exists s', GameLoop (1 # 2) toppedOut = Some s'
       /\ _gameInPlay s' = false
       /\ _gamePaused s' = _gamePaused toppedOut
       /\ _activePiece s' = _activePiece toppedOut
       /\ _pieceInPlay s' = _pieceInPlay toppedOut
       /\ same_board toppedOut s'.
Proof.
  destruct (spawn_iff_no_overlap (mkPiece 0 0 (matrixOf oPiece)) toppedOut)
    as (_ & _ & Hfail).
  destruct Hfail as [Hspawn Hloop].
  - exists 4, 2, yellow. split.
    + exists 2%nat, 1%nat, [None; Some yellow; Some yellow; None].
      split; [reflexivity |]. split; [reflexivity |]. split; reflexivity.
    + vm_compute. reflexivity.
  - split; [exact Hspawn | apply Hloop; reflexivity].
Defined.

Lemma scan_clears_first_full_row_witness :
  exists s', CheckForRowsCleared twoFullRows = Some s' /\ rowCleared 20 s'.
Proof.
  apply (scan_clears_first_full_row twoFullRows 20).
  - discriminate.
  - unfold _boardHeight. lia.
  - vm_compute. reflexivity.
  - intros k Hk. unfold twoFullRows. cbn [_collisionRows].
    rewrite !lookup_insert_ne by lia.
    rewrite StartGame_rows by (unfold _boardHeight; lia). discriminate.
Defined.

Lemma input_without_piece_witness :
  MovePieceSideways true twoFullRows = Some twoFullRows
  /\ MovePieceSideways false twoFullRows = Some twoFullRows
  /\ HandleKeyInput "ArrowLeft" twoFullRows = Some twoFullRows
  /\ HandleKeyInput "ArrowRight" twoFullRows = Some twoFullRows
  /\ HandleKeyInput "ArrowUp" twoFullRows = Some twoFullRows.
Proof. apply (input_without_piece twoFullRows). reflexivity. Defined.
(** * Further properties of the script *)

(** ** Bits of the collision index *)

(** [1 << x] written out: a power of two, or the sign bit. *)
Lemma shl_1_cases x :
  (0 <= x mod 32 < 31 /\ JS.shl 1 x = 2 ^ (x mod 32))
  \/ (x mod 32 = 31 /\ JS.shl 1 x = - 2 ^ 31).
Proof.
  unfold JS.shl. rewrite (Int32.ToInt32_id 1) by (apply Int32.int32_range; lia).
  rewrite Z.shiftl_1_l.
  pose proof (Z.mod_pos_bound x 32) as Hx.
  destruct (Z.eq_dec (x mod 32) 31) as [-> | Hne].
  - right. split; [done | reflexivity].
  - left. split; [lia |]. apply Int32.ToInt32_id, Int32.int32_range.
    assert (Hle : 2 ^ (x mod 32) <= 2 ^ 30) by (apply Z.pow_le_mono_r; lia).
    assert (Hpos : 0 < 2 ^ (x mod 32)) by (apply Z.pow_pos_nonneg; lia).
    lia.
Qed.

Lemma shl_1_mod x x' : x mod 32 = x' mod 32 -> JS.shl 1 x = JS.shl 1 x'.
Proof. unfold JS.shl. by intros ->. Qed.

Lemma testbit_sign_bit n : 0 <= n -> Z.testbit (- 2 ^ 31) n = (31 <=? n).
Proof.
  intros Hn. change (- 2 ^ 31) with (Z.lnot (Z.ones 31)).
  rewrite Z.lnot_spec by done.
  destruct (31 <=? n) eqn:Hcmp.
  - rewrite Z.ones_spec_high; [done | lia].
  - rewrite Z.ones_spec_low; [done | lia].
Qed.

(** The masks of two columns that differ modulo 32 share no bit. *)
Lemma shl_1_disjoint x x' :
  x mod 32 <> x' mod 32 -> Z.land (JS.shl 1 x) (JS.shl 1 x') = 0.
Proof.
  intros Hne. apply Z.bits_inj'. intros n Hn.
  rewrite Z.land_spec, Z.bits_0.
  destruct (shl_1_cases x) as [[Hj ->] | [Hj ->]],
           (shl_1_cases x') as [[Hk ->] | [Hk ->]].
  - rewrite !Z.pow2_bits_eqb by lia.
    destruct (Z.eqb_spec (x mod 32) n), (Z.eqb_spec (x' mod 32) n); try done. lia.
  - rewrite Z.pow2_bits_eqb, testbit_sign_bit by lia.
    destruct (Z.eqb_spec (x mod 32) n), (Z.leb_spec 31 n); try done. lia.
  - rewrite Z.pow2_bits_eqb, testbit_sign_bit by lia.
    destruct (Z.eqb_spec (x' mod 32) n), (Z.leb_spec 31 n);
      rewrite ?andb_false_r; try done. lia.
  - lia.
Qed.

Lemma rows_value_int32 s y : JS.int32 (JS.ToInt32_opt (_collisionRows s !! y)).
Proof. apply Int32.ToInt32_opt_int32. Qed.

(** X1: fixing a cell changes what the index reports for that cell only.
    For every state, [SquareFixedAt(x', y')] returns the same number before
    and after [FixSquareAt(x, y)] whenever the row differs or the column
    differs modulo 32. *)
Theorem FixSquareAt_other_cell (s : State) (x y x' y' : Z) :
  y' <> y \/ x' mod 32 <> x mod 32 ->
  SquareFixedAt x' y' (FixSquareAt x y s) = SquareFixedAt x' y' s.
Proof.
  intros Hother. unfold SquareFixedAt, JS.and.
  destruct (Z.eq_dec y y') as [<- | Hrow].
  - destruct Hother as [Hrow | Hcol]; [done |].
    rewrite FixSquareAt_row. cbn [JS.ToInt32_opt].
    rewrite Int32.ToInt32_id
      by (apply Int32.lor_int32; [apply rows_value_int32 | apply Int32.shl_int32]).
    rewrite Z.land_lor_distr_l.
    rewrite (shl_1_disjoint x x') by congruence.
    apply Z.lor_0_r.
  - by rewrite FixSquareAt_other_row.
Qed.

Lemma FixSquareAt_other_cell_witness :
  SquareFixedAt 6 20 (FixSquareAt 7 20 besideStack) = SquareFixedAt 6 20 besideStack.
Proof. apply (FixSquareAt_other_cell besideStack 7 20 6 20). right. vm_compute. discriminate. Defined.

(** X2: [UnfixSquareAt(x, y)] keeps column [x] of row [y] as it was, wipes
    every other column of that row (columns that differ from [x] modulo 32
    read 0 afterwards), and leaves the other rows alone. *)
Theorem UnfixSquareAt_wipes_the_row (s : State) (x y : Z) :
  (forall x', x' mod 32 = x mod 32 ->
     SquareFixedAt x' y (UnfixSquareAt x y s) = SquareFixedAt x' y s)
  /\ (forall x', x' mod 32 <> x mod 32 ->
        SquareFixedAt x' y (UnfixSquareAt x y s) = 0)
  /\ (forall x' y', y' <> y ->
        SquareFixedAt x' y' (UnfixSquareAt x y s) = SquareFixedAt x' y' s).
Proof.
  split_and!.
  - intros x' Hsame. unfold SquareFixedAt. rewrite (shl_1_mod x' x Hsame).
    apply SquareFixedAt_UnfixSquareAt.
  - intros x' Hcol. unfold SquareFixedAt, JS.and.
    rewrite UnfixSquareAt_row. cbn [JS.ToInt32_opt].
    rewrite Int32.ToInt32_id
      by (apply Int32.land_int32; [apply rows_value_int32 | apply Int32.shl_int32]).
    rewrite <- Z.land_assoc, (shl_1_disjoint x x') by congruence.
    apply Z.land_0_r.
  - intros x' y' Hrow. unfold SquareFixedAt.
    by rewrite UnfixSquareAt_other_row.
Qed.

Lemma fixRow_twice (rows : gmap Z Z) x y :
  let v := Z.lor (JS.ToInt32_opt (rows !! y)) (JS.shl 1 x) in
  <[y := Z.lor (JS.ToInt32_opt (<[y := v]> rows !! y)) (JS.shl 1 x)]> (<[y := v]> rows)
  = <[y := v]> rows.
Proof.
  intros v. rewrite lookup_insert_eq, insert_insert_eq. f_equal.
  cbn [JS.ToInt32_opt]. subst v.
  rewrite Int32.ToInt32_id
    by (apply Int32.lor_int32; [apply Int32.ToInt32_opt_int32 | apply Int32.shl_int32]).
  by rewrite <- Z.lor_assoc, Z.lor_diag.
Qed.

Lemma fixRow_swap (rows : gmap Z Z) x y x' y' :
  let v := Z.lor (JS.ToInt32_opt (rows !! y)) (JS.shl 1 x) in
  let v' := Z.lor (JS.ToInt32_opt (rows !! y')) (JS.shl 1 x') in
  <[y := Z.lor (JS.ToInt32_opt (<[y' := v']> rows !! y)) (JS.shl 1 x)]> (<[y' := v']> rows)
  = <[y' := Z.lor (JS.ToInt32_opt (<[y := v]> rows !! y')) (JS.shl 1 x')]> (<[y := v]> rows).
Proof.
  intros v v'. destruct (Z.eq_dec y y') as [<- | Hne].
  - rewrite !lookup_insert_eq, !insert_insert_eq. f_equal.
    cbn [JS.ToInt32_opt]. subst v v'.
    rewrite !Int32.ToInt32_id
      by (apply Int32.lor_int32; [apply Int32.ToInt32_opt_int32 | apply Int32.shl_int32]).
    rewrite <- !Z.lor_assoc. f_equal. apply Z.lor_comm.
  - rewrite !lookup_insert_ne by congruence. subst v v'.
    by apply insert_insert_ne.
Qed.

(** X3: fixing is idempotent and two fixes commute: for every state,
    [FixSquareAt(x, y)] twice leaves the state [FixSquareAt(x, y)] once
    leaves, and [FixSquareAt(x, y)] after [FixSquareAt(x', y')] leaves the
    state the other order leaves. *)
Theorem FixSquareAt_idempotent_and_commutes (s : State) (x y x' y' : Z) :
  FixSquareAt x y (FixSquareAt x y s) = FixSquareAt x y s
  /\ FixSquareAt x y (FixSquareAt x' y' s) = FixSquareAt x' y' (FixSquareAt x y s).
Proof.
  destruct s as [inPlay paused h placed falling rows piece pieceInPlay].
  unfold FixSquareAt, set_rows, JS.or.
  cbn [_gameInPlay _gamePaused heap _placedSquares _fallingSquares
       _collisionRows _activePiece _pieceInPlay].
  split; f_equal; [apply fixRow_twice | apply fixRow_swap].
Qed.

(** ** Rotation and the shapes of pieces *)

Lemma RotatePiece_4x4 (a0 a1 a2 a3 b0 b1 b2 b3 c0 c1 c2 c3 d0 d1 d2 d3 : Cell) :
  RotatePiece [[a0; a1; a2; a3]; [b0; b1; b2; b3]; [c0; c1; c2; c3]; [d0; d1; d2; d3]]
  = Some [[d0; c0; b0; a0]; [d1; c1; b1; a1]; [d2; c2; b2; a2]; [d3; c3; b3; a3]].
Proof. reflexivity. Qed.

Lemma is4x4_inv (m : Matrix) :
  is4x4 m ->
  exists a0 a1 a2 a3 b0 b1 b2 b3 c0 c1 c2 c3 d0 d1 d2 d3,
    m = [[a0; a1; a2; a3]; [b0; b1; b2; b3]; [c0; c1; c2; c3]; [d0; d1; d2; d3]].
Proof.
  intros [Hlen Hrows].
  destruct m as [| r0 [| r1 [| r2 [| r3 [| ? ?]]]]]; try discriminate.
  inversion Hrows as [| ? ? H0 Hrows1]; subst.
  inversion Hrows1 as [| ? ? H1 Hrows2]; subst.
  inversion Hrows2 as [| ? ? H2 Hrows3]; subst.
  inversion Hrows3 as [| ? ? H3 _]; subst.
  destruct r0 as [| a0 [| a1 [| a2 [| a3 [| ? ?]]]]]; try discriminate.
  destruct r1 as [| b0 [| b1 [| b2 [| b3 [| ? ?]]]]]; try discriminate.
  destruct r2 as [| c0 [| c1 [| c2 [| c3 [| ? ?]]]]]; try discriminate.
  destruct r3 as [| d0 [| d1 [| d2 [| d3 [| ? ?]]]]]; try discriminate.
  by exists a0, a1, a2, a3, b0, b1, b2, b3, c0, c1, c2, c3, d0, d1, d2, d3.
Qed.

(** X4: for every 4x4 matrix, four applications of [RotatePiece] give the
    matrix back, and two give its half turn. *)
Theorem RotatePiece_4x4_four_times (m : Matrix) :
  is4x4 m ->
  rotateTimes 4 m = Some m /\ rotateTimes 2 m = Some (rotate180 m).
Proof.
  intros (a0 & a1 & a2 & a3 & b0 & b1 & b2 & b3 & c0 & c1 & c2 & c3
          & d0 & d1 & d2 & d3 & ->)%is4x4_inv.
  split; reflexivity.
Qed.

Lemma RotatePiece_4x4_four_times_witness :
  rotateTimes 4 (matrixOf iPiece) = Some (matrixOf iPiece)
  /\ rotateTimes 2 (matrixOf iPiece) = Some (rotate180 (matrixOf iPiece)).
Proof.
  apply (RotatePiece_4x4_four_times (matrixOf iPiece)).
  split; [reflexivity | repeat constructor].
Defined.

(** The number of occupied cells is the length of the walk. *)
Lemma rowCells_length x y row :
  length (rowCells x y row)
  = list_sum (map (fun c : Cell => match c with Some _ => 1%nat | None => 0%nat end)
                  row).
Proof.
  revert x. induction row as [| [c |] row IH]; intros x; simpl; [done | |];
    by rewrite IH.
Qed.

Lemma matrixCells_length x y m : length (matrixCells x y m) = cellCount m.
Proof.
  unfold cellCount. revert y. induction m as [| row m IH]; intros y; simpl; [done |].
  rewrite length_app, rowCells_length, IH, map_app, list_sum_app. done.
Qed.

Lemma RotatePiece_square (m : Matrix) :
  is3x3 m \/ is4x4 m ->
  exists m', RotatePiece m = Some m'
    /\ (is3x3 m -> is3x3 m') /\ (is4x4 m -> is4x4 m')
    /\ cellCount m' = cellCount m.
Proof.
  intros [H3 | H4].
  - apply is3x3_inv in H3 as (a & b & c & d & e & f & g & h & i & ->).
    eexists. split; [reflexivity |]. split_and!.
    + intros _. split; [done | repeat constructor].
    + intros [Hlen _]. discriminate.
    + unfold cellCount. simpl. lia.
  - apply is4x4_inv in H4 as (a0 & a1 & a2 & a3 & b0 & b1 & b2 & b3
                              & c0 & c1 & c2 & c3 & d0 & d1 & d2 & d3 & ->).
    eexists. split; [reflexivity |]. split_and!.
    + intros [Hlen _]. discriminate.
    + intros _. split; [done | repeat constructor].
    + unfold cellCount. simpl. lia.
Qed.

(** X5: on a 3x3 or 4x4 matrix [RotatePiece] returns normally, and the
    result has the same side and the same number of occupied cells. *)
Theorem RotatePiece_keeps_side_and_cells (m : Matrix) :
  is3x3 m \/ is4x4 m ->
  exists m', RotatePiece m = Some m'
    /\ (is3x3 m -> is3x3 m') /\ (is4x4 m -> is4x4 m')
    /\ length (matrixCells 0 0 m') = length (matrixCells 0 0 m).
Proof.
  intros Hside. destruct (RotatePiece_square m Hside) as (m' & Hrot & H3 & H4 & Hcount).
  exists m'. by rewrite !matrixCells_length.
Qed.

Lemma RotatePiece_keeps_side_and_cells_witness :
  exists m', RotatePiece (matrixOf sPiece) = Some m'
    /\ (is3x3 (matrixOf sPiece) -> is3x3 m')
    /\ (is4x4 (matrixOf sPiece) -> is4x4 m')
    /\ length (matrixCells 0 0 m') = length (matrixCells 0 0 (matrixOf sPiece)).
Proof.
  apply (RotatePiece_keeps_side_and_cells (matrixOf sPiece)).
  left. split; [reflexivity | repeat constructor].
Defined.

Lemma tetromino_rotate m m' : tetromino m -> RotatePiece m = Some m' -> tetromino m'.
Proof.
  intros [Hside Hcount] Hrot.
  destruct (RotatePiece_square m Hside) as (m'' & Hrot' & H3 & H4 & Hcount').
  assert (m'' = m') as -> by congruence.
  split; [| congruence]. destruct Hside; [left | right]; auto.
Qed.

Lemma matrixOf_tetromino t : In t pieceTypes -> tetromino (matrixOf t).
Proof.
  intros Hin. simpl in Hin.
  destruct Hin as [<- | [<- | [<- | [<- | [<- | [<- | [<- | []]]]]]]];
    (split; [| reflexivity]);
    try (left; split; [reflexivity | repeat constructor]);
    right; (split; [reflexivity | repeat constructor]).
Qed.

Lemma index_In {A : Type} (a : list A) (i : Z) (t : A) : index a i = Some t -> In t a.
Proof.
  unfold index. destruct (i <? 0); [done |].
  intros Hl. apply list_elem_of_In. by eapply list_elem_of_lookup_2.
Qed.

Lemma GenerateNewPiece_inv r piece :
  GenerateNewPiece r = Some piece ->
  exists t, In t pieceTypes /\ piece = mkPiece 0 0 (matrixOf t).
Proof.
  unfold GenerateNewPiece.
  destruct (index pieceTypes (pieceIndex r)) as [t |] eqn:Hidx; [| done].
  intros Hgen. simpl in Hgen. injection Hgen as <-.
  exists t. split; [exact (index_In _ _ _ Hidx) | done].
Qed.

(** The occupied cells of a generated piece. *)
Lemma GenerateNewPiece_cells r piece :
  GenerateNewPiece r = Some piece ->
  exists c0, forall x y c, occupied piece x y c ->
    c = c0 /\ 0 <= x <= 3 /\ 0 <= y <= 2.
Proof.
  intros (t & Hin & ->)%GenerateNewPiece_inv.
  exists (color t). intros x y c Hocc%pieceCells_occupied.
  simpl in Hin.
  destruct Hin as [<- | [<- | [<- | [<- | [<- | [<- | [<- | []]]]]]]];
    vm_compute in Hocc;
    repeat (destruct Hocc as [Hocc | Hocc];
            [injection Hocc as <- <- <-; repeat split; (done || lia) |]);
    done.
Qed.

(** X6: every piece [GenerateNewPiece] returns is at the origin, has a 3x3
    or 4x4 matrix with exactly four occupied cells, all of one colour, and
    these lie in columns 0 to 3 of rows 0 to 2. *)
Theorem generated_piece_is_tetromino (r : Q) (piece : Piece) :
  GenerateNewPiece r = Some piece ->
  p_x piece = 0 /\ p_y piece = 0
  /\ (is3x3 (p_m piece) \/ is4x4 (p_m piece))
  /\ length (pieceCells piece) = 4%nat
  /\ (exists c0, forall x y c, occupied piece x y c ->
        c = c0 /\ 0 <= x <= 3 /\ 0 <= y <= 2).
Proof.
  intros Hgen. pose proof (GenerateNewPiece_cells r piece Hgen) as Hcells.
  apply GenerateNewPiece_inv in Hgen as (t & Hin & ->).
  destruct (matrixOf_tetromino t Hin) as [Hside Hcount].
  split_and!; try done.
  unfold pieceCells. by rewrite matrixCells_length.
Qed.

Lemma generated_piece_is_tetromino_witness :
  p_x (mkPiece 0 0 (matrixOf oPiece)) = 0 /\ p_y (mkPiece 0 0 (matrixOf oPiece)) = 0
  /\ (is3x3 (matrixOf oPiece) \/ is4x4 (matrixOf oPiece))
  /\ length (pieceCells (mkPiece 0 0 (matrixOf oPiece))) = 4%nat
  /\ (exists c0, forall x y c, occupied (mkPiece 0 0 (matrixOf oPiece)) x y c ->
        c = c0 /\ 0 <= x <= 3 /\ 0 <= y <= 2).
Proof.
  apply (generated_piece_is_tetromino (1 # 2) (mkPiece 0 0 (matrixOf oPiece))).
  reflexivity.
Defined.

(** ** Ticks and key presses in a game *)

(** The two results of [SpawnPiece]. *)
Lemma spawn_shape piece s :
  SpawnPiece piece s = (false, s)
  \/ SpawnPiece piece s = (true, set_piece (APiece (shifted 3 piece)) true s).
Proof.
  unfold SpawnPiece. rewrite spawn_offset. fold (shifted 3 piece).
  destruct (existsb _ _); auto.
Qed.

Lemma scanRows_same_control n i s s' :
  scanRows n i s = Some s' -> same_control s s'.
Proof.
  revert i s. induction n as [| n IH]; intros i s; cbn [scanRows].
  - intros [= <-]. apply same_control_refl.
  - destruct (rowIsFull i s).
    + destruct (Draw (RemoveRow i s)); [| done]. simpl. intros Hscan%IH.
      destruct (RemoveRow_spec i s) as (_ & Hc & _).
      by eapply same_control_trans.
    + simpl. apply IH.
Qed.

(** What gravity and the scan make of the player piece and of the flags. *)
Lemma gravity_then_scan s1 p s' :
  _activePiece s1 = APiece p ->
  (s2 ← ProcessGravity s1; CheckForRowsCleared s2) = Some s' ->
  _gameInPlay s' = _gameInPlay s1 /\ _gamePaused s' = _gamePaused s1
  /\ ((_activePiece s' = APiece (lowered p) /\ _pieceInPlay s' = _pieceInPlay s1)
      \/ (_activePiece s' = APNull /\ _pieceInPlay s' = false)).
Proof.
  intros Ha. unfold ProcessGravity. rewrite Ha. simpl.
  intros (Hg & Hp & Hap & Hip)%scanRows_same_control.
  destruct (fallSquares_spec (dropPiece p s1)) as (_ & _ & _ & (Hg' & Hp' & Hap' & Hip') & _).
  rewrite Hg, Hp, Hap, Hip, Hg', Hp', Hap', Hip'.
  unfold dropPiece. destruct (negb _).
  - split_and!; [done | done |]. by left.
  - destruct (landing_spec (pieceCells p) s1) as (_ & _ & _ & (Hg'' & Hp'' & _) & _).
    split_and!; [done | done |]. by right.
Qed.

(** The cases of a tick: paused; a failed spawn; or gravity on the piece in
    play or on the piece just spawned. *)
Lemma GameLoop_cases r s s' :
  GameLoop r s = Some s' ->
  (_gamePaused s = true /\ s' = s)
  \/ (_gamePaused s = false /\ _pieceInPlay s = false
      /\ exists piece, GenerateNewPiece r = Some piece
                       /\ (SpawnPiece piece s).1 = false /\ s' = set_gameInPlay false s)
  \/ (_gamePaused s = false
      /\ _gameInPlay s' = _gameInPlay s /\ _gamePaused s' = false
      /\ exists p,
          ((_pieceInPlay s = true /\ _activePiece s = APiece p)
           \/ (_pieceInPlay s = false
               /\ exists piece, GenerateNewPiece r = Some piece
                                /\ (SpawnPiece piece s).1 = true /\ p = shifted 3 piece))
          /\ ((_activePiece s' = APiece (lowered p) /\ _pieceInPlay s' = true)
              \/ (_activePiece s' = APNull /\ _pieceInPlay s' = false))).
Proof.
  unfold GameLoop. intros Hloop.
  destruct (_gamePaused s) eqn:Hpaused; [injection Hloop as <-; by left |].
  right. destruct (_pieceInPlay s) eqn:Hplay; simpl in Hloop.
  - unfold Draw, ProcessGravity in Hloop.
    destruct (_activePiece s) as [| | p] eqn:Ha; simpl in Hloop; try done.
    assert (Hrest : (s2 ← ProcessGravity s; CheckForRowsCleared s2) = Some s')
      by (unfold ProcessGravity; by rewrite Ha).
    apply (gravity_then_scan s p s' Ha) in Hrest as (Hg & Hp & Hcases).
    right. split_and!; [done | done | congruence |].
    exists p. split; [by left |]. rewrite Hplay in Hcases. exact Hcases.
  - unfold SpawnNewPiece in Hloop.
    destruct (GenerateNewPiece r) as [piece |] eqn:Hgen; [| done]. simpl in Hloop.
    destruct (spawn_shape piece s) as [Hfail | Hok].
    + rewrite Hfail in Hloop. simpl in Hloop. injection Hloop as <-.
      left. split_and!; [done | done |]. exists piece. by rewrite Hfail.
    + rewrite Hok in Hloop. unfold Draw in Hloop. simpl in Hloop. right.
      assert (Hrest : (s2 ← ProcessGravity (set_piece (APiece (shifted 3 piece)) true s);
                       CheckForRowsCleared s2) = Some s') by exact Hloop.
      apply (gravity_then_scan _ (shifted 3 piece) s') in Hrest as (Hg & Hp & Hcases);
        [| done].
      simpl in Hg, Hp, Hcases.
      split_and!; [done | done | congruence |].
      exists (shifted 3 piece). split.
      * right. split; [done |]. exists piece. by rewrite Hok.
      * exact Hcases.
Qed.

Lemma GameLoop_shape r s s' :
  piece_shape_ok s -> GameLoop r s = Some s' -> piece_shape_ok s'.
Proof.
  intros Hshape Hloop. unfold piece_shape_ok in *.
  apply GameLoop_cases in Hloop
    as [[_ ->] | [(_ & _ & piece & _ & _ & ->) | (_ & _ & _ & p & Hfrom & Hto)]];
    [done | done |].
  destruct Hto as [[-> _] | [-> _]]; [| done]. simpl.
  destruct Hfrom as [[_ Ha] | (_ & piece & Hgen & _ & ->)].
  - by rewrite Ha in Hshape.
  - apply GenerateNewPiece_inv in Hgen as (t & Hin & ->). simpl.
    by apply matrixOf_tetromino.
Qed.

(** What a key press can change: the pause flag, or the column or the
    matrix of the active piece. *)
Lemma HandleKeyInput_cases key s s' :
  HandleKeyInput key s = Some s' ->
  s' = s
  \/ (key = "p"%string /\ s' = set_gamePaused (negb (_gamePaused s)) s)
  \/ (exists p dx, (key = "ArrowLeft"%string /\ dx = -1
                    \/ key = "ArrowRight"%string /\ dx = 1)
        /\ _activePiece s = APiece p
        /\ s' = set_piece (APiece (shifted dx p)) (_pieceInPlay s) s)
  \/ (exists p m', key = "ArrowUp"%string /\ _activePiece s = APiece p
        /\ RotatePiece (p_m p) = Some m'
        /\ s' = set_piece (APiece (mkPiece (p_x p) (p_y p) m')) (_pieceInPlay s) s).
Proof.
  assert (Hmove : forall left,
            MovePieceSideways left s = Some s' ->
            s' = s \/ exists p, _activePiece s = APiece p
                     /\ s' = set_piece (APiece (shifted (if left then -1 else 1) p))
                                       (_pieceInPlay s) s).
  { intros left. unfold MovePieceSideways.
    destruct (_activePiece s) as [| | p] eqn:Ha; [done | intros [= <-]; by left |].
    destruct (existsb _ _); [intros [= <-]; by left |].
    simpl. intros [= <-]. right. by exists p. }
  unfold HandleKeyInput.
  destruct (String.eqb_spec key "ArrowLeft") as [-> | _].
  { intros [-> | (p & Ha & ->)]%Hmove; [by left |].
    right; right; left. exists p, (-1). split_and!; [by left | done | done]. }
  destruct (String.eqb_spec key "ArrowUp") as [-> | _].
  { destruct (_activePiece s) as [| | p] eqn:Ha; [done | intros [= <-]; by left |].
    destruct (RotatePiece (p_m p)) as [m' |] eqn:Hrot; [| done].
    simpl. intros [= <-]. right; right; right. by exists p, m'. }
  destruct (String.eqb_spec key "ArrowRight") as [-> | _].
  { intros [-> | (p & Ha & ->)]%Hmove; [by left |].
    right; right; left. exists p, 1. split_and!; [by right | done | done]. }
  destruct (String.eqb_spec key "p") as [-> | _]; intros [= <-]; [| by left].
  right; left. done.
Qed.

Lemma HandleKeyInput_shape key s s' :
  piece_shape_ok s -> HandleKeyInput key s = Some s' -> piece_shape_ok s'.
Proof.
  intros Hshape Hkey. unfold piece_shape_ok in *.
  apply HandleKeyInput_cases in Hkey
    as [-> | [[_ ->] | [(p & dx & _ & Ha & ->) | (p & m' & _ & Ha & Hrot & ->)]]];
    try done; rewrite Ha in Hshape; simpl; [done |].
  by eapply tetromino_rotate.
Qed.

Lemma run_shape es pg pg' :
  piece_shape_ok (state pg) -> run es pg = Some pg' -> piece_shape_ok (state pg').
Proof.
  revert pg. induction es as [| e es IH]; intros pg Hshape; cbn [run].
  - by intros [= <-].
  - destruct (deliver e pg) as [pg1 |] eqn:Hstep; [| done]. simpl.
    apply IH. destruct e as [r | key]; simpl in Hstep.
    + unfold onInterval in Hstep. destruct (interval pg).
      * destruct (GameLoop r (state pg)) as [s1 |] eqn:Hloop; [| done].
        simpl in Hstep. injection Hstep as <-. by apply (GameLoop_shape r (state pg)).
      * by injection Hstep as <-.
    + destruct (HandleKeyInput key (state pg)) as [s1 |] eqn:Hkey; [| done].
      simpl in Hstep. injection Hstep as <-.
      by apply (HandleKeyInput_shape key (state pg)).
Qed.

(** X7: in every state a started game reaches, [_pieceInPlay] is true
    exactly when [_activePiece] is a piece, and that piece has a row [y]
    that is not negative, a 3x3 or 4x4 matrix and exactly four occupied
    cells. *)
Theorem active_piece_in_a_game (es : list Event) (pg : Page) :
  run es started = Some pg ->
  (_pieceInPlay (state pg) = true <-> exists p, _activePiece (state pg) = APiece p)
  /\ forall p, _activePiece (state pg) = APiece p ->
       0 <= p_y p /\ (is3x3 (p_m p) \/ is4x4 (p_m p))
       /\ length (pieceCells p) = 4%nat.
Proof.
  intros Hrun.
  pose proof (reached_invariant es pg Hrun) as (_ & _ & Hpiece).
  assert (Hshape : piece_shape_ok (state pg)) by (by apply (run_shape es started)).
  unfold piece_ok in Hpiece. unfold piece_shape_ok in Hshape. split.
  - destruct (_activePiece (state pg)) as [| | p]; split;
      try (intros [q Hq]); try congruence; try tauto; try done.
    + intros _. by exists p.
  - intros p Hp. rewrite Hp in Hpiece, Hshape.
    destruct Hpiece as [_ Hy], Hshape as [Hside Hcount].
    split_and!; [done | done |].
    unfold pieceCells. by rewrite matrixCells_length.
Qed.

Lemma active_piece_in_a_game_witness :
  (_pieceInPlay besideStack = true <-> exists p, _activePiece besideStack = APiece p)
  /\ forall p, _activePiece besideStack = APiece p ->
       0 <= p_y p /\ (is3x3 (p_m p) \/ is4x4 (p_m p))
       /\ length (pieceCells p) = 4%nat.
Proof.
  apply (active_piece_in_a_game besideStack_game (mkPage true besideStack)).
  vm_compute. reflexivity.
Defined.

(** X8: a timer tick never raises in a game: in every state a started game
    reaches and for every draw of [Math.random()], the interval callback
    returns. *)
Theorem tick_never_raises (es : list Event) (pg : Page) (r : Q) :
  run es started = Some pg -> (0 <= r)%Q -> (r < 1)%Q ->
  exists pg', deliver (Tick r) pg = Some pg'.
Proof.
  intros Hrun Hr0 Hr1. simpl. unfold onInterval.
  destruct (interval pg); [| by eexists].
  destruct (GameLoop_total r (state pg)) as [s' ->]; [| done | done |].
  - by apply (reached_invariant es).
  - by eexists.
Qed.

Lemma tick_never_raises_witness :
  exists pg', deliver (Tick (1 # 2)) (mkPage true besideStack) = Some pg'.
Proof.
  apply (tick_never_raises besideStack_game (mkPage true besideStack) (1 # 2)).
  - vm_compute. reflexivity.
  - vm_compute. discriminate.
  - vm_compute. reflexivity.
Defined.

Lemma MovePieceSideways_None left s :
  MovePieceSideways left s = None <-> _activePiece s = APInit.
Proof.
  unfold MovePieceSideways. destruct (_activePiece s) as [| | p]; [done | done |].
  by destruct (existsb _ _).
Qed.

(** X9: in a started game a key press raises exactly when it is an arrow key
    and no piece has been spawned yet, that is while [_activePiece] still is
    the [[]] it was initialised with. *)
Theorem key_raises_only_before_first_spawn (es : list Event) (pg : Page) (key : string) :
  run es started = Some pg ->
  HandleKeyInput key (state pg) = None
  <-> _activePiece (state pg) = APInit /\ arrowKey key.
Proof.
  intros Hrun.
  assert (Hshape : piece_shape_ok (state pg)) by (by apply (run_shape es started)).
  unfold piece_shape_ok in Hshape. unfold HandleKeyInput, arrowKey.
  destruct (String.eqb_spec key "ArrowLeft") as [-> | Hl].
  { rewrite MovePieceSideways_None. split; [intros Ha; split; auto | tauto]. }
  destruct (String.eqb_spec key "ArrowUp") as [-> | Hu].
  { destruct (_activePiece (state pg)) as [| | p].
    - split; [intros _; split; auto | done].
    - split; [done | intros [? _]; done].
    - destruct Hshape as [Hside _].
      destruct (RotatePiece_square (p_m p) Hside) as (m' & -> & _).
      simpl. split; [done | intros [? _]; done]. }
  destruct (String.eqb_spec key "ArrowRight") as [-> | Hr].
  { rewrite MovePieceSideways_None. split; [intros Ha; split; auto | tauto]. }
  destruct (String.eqb key "p"); (split; [done | intros [_ [? | [? | ?]]]; done]).
Qed.

Lemma key_raises_only_before_first_spawn_witness :
  HandleKeyInput "ArrowUp" (StartGame loaded) = None
  <-> _activePiece (StartGame loaded) = APInit /\ arrowKey "ArrowUp".
Proof.
  apply (key_raises_only_before_first_spawn [] started "ArrowUp"). reflexivity.
Defined.

(** ** The flags *)

(** X10: a key press never touches the board: whatever the key, the square
    store, [_placedSquares], [_fallingSquares], [_collisionRows],
    [_gameInPlay] and [_pieceInPlay] are as before, and the active piece, if
    it is still one, is on the row it was on. *)
Theorem key_press_keeps_board (key : string) (s s' : State) :
  HandleKeyInput key s = Some s' ->
  heap s' = heap s /\ _placedSquares s' = _placedSquares s
  /\ _fallingSquares s' = _fallingSquares s
  /\ _collisionRows s' = _collisionRows s
  /\ _gameInPlay s' = _gameInPlay s /\ _pieceInPlay s' = _pieceInPlay s
  /\ forall p', _activePiece s' = APiece p' ->
       exists p, _activePiece s = APiece p /\ p_y p' = p_y p.
Proof.
  intros Hkey.
  apply HandleKeyInput_cases in Hkey
    as [-> | [[_ ->] | [(p & dx & _ & Ha & ->) | (p & m' & _ & Ha & Hrot & ->)]]];
    simpl; split_and!; try done.
  - intros p' Hp'. by exists p'.
  - intros p' Hp'. by exists p'.
  - intros p' [= <-]. by exists p.
  - intros p' [= <-]. by exists p.
Qed.

Lemma key_press_keeps_board_witness :
  heap (set_gamePaused true besideStack) = heap besideStack
  /\ _placedSquares (set_gamePaused true besideStack) = _placedSquares besideStack
  /\ _fallingSquares (set_gamePaused true besideStack) = _fallingSquares besideStack
  /\ _collisionRows (set_gamePaused true besideStack) = _collisionRows besideStack
  /\ _gameInPlay (set_gamePaused true besideStack) = _gameInPlay besideStack
  /\ _pieceInPlay (set_gamePaused true besideStack) = _pieceInPlay besideStack
  /\ forall p', _activePiece (set_gamePaused true besideStack) = APiece p' ->
       exists p, _activePiece besideStack = APiece p /\ p_y p' = p_y p.
Proof.
  apply (key_press_keeps_board "p" besideStack (set_gamePaused true besideStack)).
  reflexivity.
Defined.

(** Ticks are not delivered once the interval is cleared. *)
Lemma run_ticks_cleared rs pg :
  interval pg = false -> run (map Tick rs) pg = Some pg.
Proof.
  intros Hoff. induction rs as [| r rs IH]; [done |].
  cbn [map run deliver]. unfold onInterval. rewrite Hoff. simpl. exact IH.
Qed.

(** X11: the game never comes back from being over.  Once [_gameInPlay] is
    false no tick and no key press makes it true again, and the first
    interval callback after that clears the interval: it is the last one. *)
Theorem game_over_is_final (pg : Page) :
  _gameInPlay (state pg) = false ->
  (forall e pg', deliver e pg = Some pg' -> _gameInPlay (state pg') = false)
  /\ (forall r pg', deliver (Tick r) pg = Some pg' ->
        interval pg' = false /\ forall rs, run (map Tick rs) pg' = Some pg').
Proof.
  intros Hover.
  assert (Htick : forall r pg', deliver (Tick r) pg = Some pg' ->
            _gameInPlay (state pg') = false /\ interval pg' = false).
  { intros r pg'. simpl. unfold onInterval.
    destruct (interval pg) eqn:Hint; [| by intros [= <-]].
    destruct (GameLoop r (state pg)) as [s' |] eqn:Hloop; [| done].
    simpl. intros [= <-]. simpl. rewrite Hover. split; [| done].
    apply GameLoop_cases in Hloop
      as [[_ ->] | [(_ & _ & piece & _ & _ & ->) | (_ & Hg & _)]];
      [done | done | congruence]. }
  split.
  - intros [r | key] pg' Hstep; [by apply (Htick r) |].
    simpl in Hstep.
    destruct (HandleKeyInput key (state pg)) as [s' |] eqn:Hkey; [| done].
    simpl in Hstep. injection Hstep as <-. simpl.
    apply HandleKeyInput_cases in Hkey
      as [-> | [[_ ->] | [(p & dx & _ & _ & ->) | (p & m' & _ & _ & _ & ->)]]];
      done.
  - intros r pg' Hstep. destruct (Htick r pg' Hstep) as [_ Hoff].
    split; [done |]. intros rs. by apply run_ticks_cleared.
Qed.

Lemma game_over_is_final_witness :
  (forall e pg', deliver e (mkPage true (set_gameInPlay false toppedOut)) = Some pg' ->
     _gameInPlay (state pg') = false)
  /\ (forall r pg',
        deliver (Tick r) (mkPage true (set_gameInPlay false toppedOut)) = Some pg' ->
        interval pg' = false /\ forall rs, run (map Tick rs) pg' = Some pg').
Proof.
  apply (game_over_is_final (mkPage true (set_gameInPlay false toppedOut))).
  reflexivity.
Defined.

(** While the game is paused, ticks leave the state as it is. *)
Lemma run_ticks_paused rs pg :
  _gamePaused (state pg) = true ->
  exists pg', run (map Tick rs) pg = Some pg' /\ state pg' = state pg.
Proof.
  revert pg. induction rs as [| r rs IH]; intros pg Hpaused; [by exists pg |].
  cbn [map run deliver]. unfold onInterval, GameLoop.
  destruct (interval pg); rewrite ?Hpaused; simpl.
  - destruct (IH (mkPage (_gameInPlay (state pg)) (state pg)) Hpaused)
      as (pg' & -> & Hst). by exists pg'.
  - by apply IH.
Qed.

Lemma pause_twice s :
  set_gamePaused (negb (_gamePaused (set_gamePaused (negb (_gamePaused s)) s)))
                 (set_gamePaused (negb (_gamePaused s)) s) = s.
Proof. destruct s as [? [|] ? ? ? ? ? ?]; reflexivity. Qed.

(** X12: pausing, any number of ticks, and resuming bring the game back to
    the state it was paused in: while [_gamePaused] is set the interval
    callback changes nothing. *)
Theorem pause_round_trip (pg : Page) (rs : list Q) :
  _gamePaused (state pg) = false ->
  exists pg', run (KeyDown "p" :: map Tick rs ++ [KeyDown "p"]) pg = Some pg'
              /\ state pg' = state pg.
Proof.
  intros Hrunning. cbn [run deliver HandleKeyInput]. simpl.
  set (paused := set_gamePaused (negb (_gamePaused (state pg))) (state pg)).
  assert (Hrun : forall es1 es2 pg0, run (es1 ++ es2) pg0 = run es1 pg0 ≫= run es2).
  { induction es1 as [| e es1 IH]; intros es2 pg0; [done |].
    cbn [app run]. destruct (deliver e pg0); simpl; [apply IH | done]. }
  rewrite Hrun.
  destruct (run_ticks_paused rs (mkPage (interval pg) paused)) as (pg1 & -> & Hst).
  { unfold paused. simpl. by rewrite Hrunning. }
  simpl in *. eexists. split; [reflexivity |]. simpl. rewrite Hst.
  apply pause_twice.
Qed.

Lemma pause_round_trip_witness :
  exists pg',
    run (KeyDown "p" :: map Tick [1 # 2; 0%Q; 1 # 3] ++ [KeyDown "p"])
        (mkPage true besideStack) = Some pg'
    /\ state pg' = state (mkPage true besideStack).
Proof.
  apply (pause_round_trip (mkPage true besideStack) [1 # 2; 0%Q; 1 # 3]). reflexivity.
Defined.

(** ** The life of a square *)

Lemma square_fell_refl sq : square_fell sq sq.
Proof. unfold square_fell. split_and!; try done. Qed.

Lemma heap_advances_refl h : heap_advances h h.
Proof. intros b sq Hb. exists sq. split; [done | apply square_fell_refl]. Qed.

Lemma heap_advances_trans h1 h2 h3 :
  heap_advances h1 h2 -> heap_advances h2 h3 -> heap_advances h1 h3.
Proof.
  intros H12 H23 b sq Hb.
  destruct (H12 b sq Hb) as (sq2 & Hb2 & Hx & Hc & Hy & Hfloor).
  destruct (H23 b sq2 Hb2) as (sq3 & Hb3 & Hx' & Hc' & Hy' & Hfloor').
  exists sq3. split; [done |]. unfold square_fell.
  split_and!; [congruence | congruence | lia | auto].
Qed.

Lemma heap_advances_app h l : heap_advances h (h ++ l).
Proof.
  intros b sq Hb. exists sq. split; [| apply square_fell_refl].
  by apply lookup_app_l_Some.
Qed.

Lemma fallSquare_advances s still b s' still' :
  fallSquare (s, still) b = (s', still') -> heap_advances (heap s) (heap s').
Proof.
  unfold fallSquare.
  destruct (_ && _) eqn:Hfall; intros [= <- <-]; simpl; [| apply heap_advances_refl].
  apply andb_true_iff in Hfall as [Hfloor%Z.ltb_lt _].
  intros b' sq Hb'. destruct (decide (b = b')) as [<- | Hne].
  - assert (Heq : heap s !!! b = sq) by exact (list_lookup_total_correct _ _ _ Hb').
    rewrite Heq in Hfloor. rewrite Heq.
    eexists. split.
    + apply list_lookup_insert_eq. by eapply lookup_lt_Some.
    + unfold square_fell. simpl. unfold _boardHeight in *. split_and!; try done; lia.
  - exists sq. split; [| apply square_fell_refl].
    by rewrite list_lookup_insert_ne.
Qed.

Lemma fallSquares_advances s : heap_advances (heap s) (heap (fallSquares s)).
Proof.
  unfold fallSquares.
  assert (Hfold : forall l s0 still s1 still1,
            foldl fallSquare (s0, still) l = (s1, still1) ->
            heap_advances (heap s0) (heap s1)).
  { induction l as [| b l IH]; intros s0 still s1 still1; cbn [foldl].
    - intros [= <- <-]. apply heap_advances_refl.
    - destruct (fallSquare (s0, still) b) as [s2 still2] eqn:Hstep.
      intros Hrest. eapply heap_advances_trans.
      + by eapply fallSquare_advances.
      + by eapply IH. }
  destruct (foldl fallSquare (s, []) (_fallingSquares s)) as [s1 still] eqn:Hf.
  simpl. by eapply Hfold.
Qed.

Lemma ProcessGravity_advances s s' :
  ProcessGravity s = Some s' -> heap_advances (heap s) (heap s').
Proof.
  unfold ProcessGravity. destruct (_activePiece s) as [| | p]; try done.
  intros [= <-]. eapply heap_advances_trans; [| apply fallSquares_advances].
  unfold dropPiece. destruct (negb _); simpl; [apply heap_advances_refl |].
  destruct (landing_spec (pieceCells p) s) as (-> & _).
  apply heap_advances_app.
Qed.

Lemma scanRows_heap n i s s' : scanRows n i s = Some s' -> heap s' = heap s.
Proof.
  revert i s. induction n as [| n IH]; intros i s; cbn [scanRows].
  - by intros [= <-].
  - destruct (rowIsFull i s).
    + destruct (Draw (RemoveRow i s)); [| done]. simpl. intros ->%IH.
      by destruct (RemoveRow_spec i s) as (-> & _).
    + simpl. apply IH.
Qed.

Lemma GameLoop_advances r s s' :
  GameLoop r s = Some s' -> heap_advances (heap s) (heap s').
Proof.
  unfold GameLoop. intros Hloop.
  destruct (_gamePaused s); [injection Hloop as <-; apply heap_advances_refl |].
  assert (Hrest : forall s1, heap s1 = heap s ->
            (_ ← Draw s1; s2 ← ProcessGravity s1; CheckForRowsCleared s2) = Some s' ->
            heap_advances (heap s) (heap s')).
  { intros s1 Hh. destruct (Draw s1); [| done]. simpl.
    destruct (ProcessGravity s1) as [s2 |] eqn:Hgrav; [| done]. simpl.
    intros ->%scanRows_heap. rewrite <- Hh. by apply ProcessGravity_advances. }
  destruct (_pieceInPlay s); simpl in Hloop; [by apply (Hrest s) |].
  unfold SpawnNewPiece in Hloop.
  destruct (GenerateNewPiece r) as [piece |]; [| done]. simpl in Hloop.
  destruct (spawn_shape piece s) as [Hsp | Hsp]; rewrite Hsp in Hloop.
  - simpl in Hloop. injection Hloop as <-. apply heap_advances_refl.
  - by apply (Hrest (set_piece (APiece (shifted 3 piece)) true s)).
Qed.

(** X13: for as long as the script holds a square object, on
    [_placedSquares] or on [_fallingSquares], the square never changes
    column or colour and never moves up; and a square that is on the
    board's last row or above it is never moved below that row.  This holds
    from any page over any sequence of ticks and key presses, for every
    square that exists at the start and is on one of the two lists at the
    end.  (A row clear drops the squares of the cleared row from both
    lists; nothing is said of them afterwards.) *)
Theorem squares_only_fall (es : list Event) (pg pg' : Page) :
  run es pg = Some pg' ->
  forall b sq, heap (state pg) !! b = Some sq -> listed b (state pg') ->
    exists sq', heap (state pg') !! b = Some sq'
      /\ sq_x sq' = sq_x sq /\ sq_color sq' = sq_color sq /\ sq_y sq <= sq_y sq'
      /\ (sq_y sq <= _boardHeight - 1 -> sq_y sq' <= _boardHeight - 1).
Proof.
  intros Hrun b sq Hb _. revert b sq Hb.
  change (heap_advances (heap (state pg)) (heap (state pg'))).
  revert pg Hrun. induction es as [| e es IH]; intros pg; cbn [run].
  - intros [= <-]. apply heap_advances_refl.
  - destruct (deliver e pg) as [pg1 |] eqn:Hstep; [| done]. simpl.
    intros Hrest%IH. eapply heap_advances_trans; [| exact Hrest].
    destruct e as [r | key]; simpl in Hstep.
    + unfold onInterval in Hstep. destruct (interval pg).
      * destruct (GameLoop r (state pg)) as [s1 |] eqn:Hloop; [| done].
        simpl in Hstep. injection Hstep as <-. by apply (GameLoop_advances r).
      * injection Hstep as <-. apply heap_advances_refl.
    + destruct (HandleKeyInput key (state pg)) as [s1 |] eqn:Hkey; [| done].
      simpl in Hstep. injection Hstep as <-. simpl.
      apply HandleKeyInput_cases in Hkey
        as [-> | [[_ ->] | [(p & dx & _ & _ & ->) | (p & m' & _ & _ & _ & ->)]]];
        apply heap_advances_refl.
Qed.

Lemma squares_only_fall_witness :
  exists pg', run [tickO] (mkPage true besideStack) = Some pg'
    /\ exists sq', heap (state pg') !! 0%nat = Some sq'
         /\ sq_x sq' = 4 /\ sq_color sq' = yellow /\ 20 <= sq_y sq'
         /\ (20 <= _boardHeight - 1 -> sq_y sq' <= _boardHeight - 1).
Proof.
  eexists. split; [vm_compute; reflexivity |].
  refine (squares_only_fall [tickO] (mkPage true besideStack) _ _
                            0%nat (mkSquare 4 20 yellow) _ _).
  - vm_compute. reflexivity.
  - reflexivity.
  - left. vm_compute. tauto.
Defined.

(** ** The row scan only removes *)

Lemma UnfixSquareAt_no_new_bit x y x' y' s :
  isFixed x y (UnfixSquareAt x' y' s) -> isFixed x y s.
Proof.
  unfold isFixed, SquareFixedAt, JS.and, JS.truthy.
  destruct (Z.eq_dec y' y) as [-> | Hne].
  - rewrite UnfixSquareAt_row. cbn [JS.ToInt32_opt].
    rewrite Int32.ToInt32_id
      by (apply Int32.land_int32; [apply rows_value_int32 | apply Int32.shl_int32]).
    rewrite !negb_true_iff, !Z.eqb_neq. intros Hbit Hzero. apply Hbit.
    rewrite <- Z.land_assoc, (Z.land_comm (JS.shl 1 x')), Z.land_assoc, Hzero.
    apply Z.land_0_l.
  - by rewrite UnfixSquareAt_other_row.
Qed.

Lemma zero_row_no_new_bit x y j s :
  isFixed x y (set_rows (<[j := 0]> (_collisionRows s)) s) -> isFixed x y s.
Proof.
  unfold isFixed, SquareFixedAt, JS.and, JS.truthy. cbn [_collisionRows set_rows].
  destruct (Z.eq_dec j y) as [-> | Hne].
  - rewrite lookup_insert_eq. cbn [JS.ToInt32_opt].
    change (JS.ToInt32 0) with 0. rewrite Z.land_0_l. discriminate.
  - by rewrite lookup_insert_ne.
Qed.

Lemma foldl_releaseSquare_no_new_bit j l s newBoard s' newBoard' x y :
  foldl (releaseSquare j) (s, newBoard) l = (s', newBoard') ->
  isFixed x y s' -> isFixed x y s.
Proof.
  revert s newBoard. induction l as [| b l IH]; intros s newBoard; cbn [foldl].
  - by intros [= <- <-].
  - destruct (releaseSquare j (s, newBoard) b) as [s1 newBoard1] eqn:Hstep.
    intros Hfold Hbit. apply (IH _ _ Hfold) in Hbit.
    unfold releaseSquare in Hstep.
    destruct (sq_y (heap s !!! b) =? j); injection Hstep as <- <-; [done |].
    apply (UnfixSquareAt_no_new_bit x y (sq_x (heap s !!! b)) (sq_y (heap s !!! b))).
    exact Hbit.
Qed.

Lemma RemoveRow_no_new_bit j s x y : isFixed x y (RemoveRow j s) -> isFixed x y s.
Proof.
  unfold RemoveRow.
  destruct (foldl _ _ _) as [s1 newBoard] eqn:Hfold. intros Hbit.
  apply (zero_row_no_new_bit x y j).
  apply (foldl_releaseSquare_no_new_bit _ _ _ _ _ _ x y Hfold). exact Hbit.
Qed.

Lemma scanRows_only_removes n i s s' :
  scanRows n i s = Some s' ->
  (forall b, In b (_placedSquares s') -> In b (_placedSquares s))
  /\ (forall b, In b (_fallingSquares s) -> In b (_fallingSquares s'))
  /\ (forall x y, isFixed x y s' -> isFixed x y s).
Proof.
  revert i s. induction n as [| n IH]; intros i s; cbn [scanRows].
  - by intros [= <-].
  - destruct (rowIsFull i s).
    + destruct (Draw (RemoveRow i s)); [| done]. simpl.
      intros (Hp & Hf & Hbits)%IH.
      destruct (RemoveRow_spec i s) as (_ & _ & Hp' & Hf' & _).
      split_and!.
      * intros b Hin%Hp. rewrite Hp' in Hin. by apply offRow_In in Hin as [? _].
      * intros b Hin. apply Hf. rewrite Hf'. apply in_or_app. by left.
      * intros x y Hbit%Hbits. by apply RemoveRow_no_new_bit in Hbit.
    + simpl. apply IH.
Qed.

(** X14: the row scan only removes.  Whatever it clears,
    [CheckForRowsCleared] changes no square object, adds no square to
    [_placedSquares], takes none off [_fallingSquares], sets no bit of the
    collision index, and leaves the flags and the active piece alone. *)
Theorem scan_only_removes (s s' : State) :
  CheckForRowsCleared s = Some s' ->
  heap s' = heap s
  /\ (forall b, In b (_placedSquares s') -> In b (_placedSquares s))
  /\ (forall b, In b (_fallingSquares s) -> In b (_fallingSquares s'))
  /\ (forall x y, isFixed x y s' -> isFixed x y s)
  /\ same_control s s'.
Proof.
  unfold CheckForRowsCleared. intros Hscan.
  destruct (scanRows_only_removes _ _ _ _ Hscan) as (Hp & Hf & Hbits).
  split_and!; try done.
  - by eapply scanRows_heap.
  - by eapply scanRows_same_control.
Qed.

Lemma scan_only_removes_witness :
  exists s', CheckForRowsCleared twoFullRows = Some s'
    /\ heap s' = heap twoFullRows
    /\ (forall b, In b (_placedSquares s') -> In b (_placedSquares twoFullRows))
    /\ (forall b, In b (_fallingSquares twoFullRows) -> In b (_fallingSquares s'))
    /\ (forall x y, isFixed x y s' -> isFixed x y twoFullRows)
    /\ same_control twoFullRows s'.
Proof.
  eexists. split; [vm_compute; reflexivity |].
  refine (scan_only_removes twoFullRows _ _).
  vm_compute. reflexivity.
Defined.

(** X15: when no row of the board is full the scan changes nothing:
    [CheckForRowsCleared] returns with the state exactly as it was. *)
Theorem scan_without_full_row (s : State) :
  (forall k, 0 <= k < _boardHeight -> _collisionRows s !! k <> Some _fullRowVal) ->
  CheckForRowsCleared s = Some s.
Proof.
  intros Hnone. unfold CheckForRowsCleared. apply scanRows_none_full.
  intros k Hk. destruct (rowIsFull k s) eqn:Hfull; [| done].
  apply rowIsFull_true in Hfull. exfalso. apply (Hnone k); [| done].
  unfold _boardHeight in *. lia.
Qed.

Lemma besideStack_no_full_row k :
  0 <= k < _boardHeight -> _collisionRows besideStack !! k <> Some _fullRowVal.
Proof.
  intros Hk. unfold besideStack. cbn [_collisionRows].
  destruct (Z.eq_dec k 21) as [-> | H21]; [by rewrite lookup_insert_eq |].
  rewrite lookup_insert_ne by done.
  destruct (Z.eq_dec k 20) as [-> | H20]; [by rewrite lookup_insert_eq |].
  rewrite lookup_insert_ne by done.
  by rewrite StartGame_rows.
Qed.

Lemma scan_without_full_row_witness : CheckForRowsCleared besideStack = Some besideStack.
Proof. apply (scan_without_full_row besideStack). apply besideStack_no_full_row. Defined.

(** ** Spawning, moving and quiet ticks *)

Lemma occupied_shifted dx p x y c :
  occupied (shifted dx p) x y c <-> occupied p (x - dx) y c.
Proof.
  unfold occupied, shifted. simpl.
  split; intros (i & j & row & Hi & Hj & Hx & Hy); exists i, j, row;
    split_and!; try done; lia.
Qed.

Lemma StartGame_nothing_fixed x y :
  0 <= y < _boardHeight -> ~ isFixed x y (StartGame loaded).
Proof.
  intros Hy. unfold isFixed, SquareFixedAt, JS.and, JS.truthy.
  rewrite StartGame_rows by done. cbn [JS.ToInt32_opt].
  change (JS.ToInt32 0) with 0. rewrite Z.land_0_l. discriminate.
Qed.

(** X16: spawning succeeds whenever columns 3 to 6 of rows 0 to 2 read as
    free: for every draw for which [GenerateNewPiece] returns a piece,
    [SpawnNewPiece] then returns true and leaves a state in which that
    piece, moved three columns to the right, is [_activePiece] and
    [_pieceInPlay] is true; nothing else changes. *)
Theorem spawn_on_clear_top (r : Q) (piece : Piece) (s : State) :
  GenerateNewPiece r = Some piece ->
  (forall x y, 3 <= x <= 6 -> 0 <= y <= 2 -> ~ isFixed x y s) ->
  exists s', SpawnNewPiece r s = Some (true, s')
    /\ _activePiece s' = APiece (shifted 3 piece) /\ _pieceInPlay s' = true
    /\ _gameInPlay s' = _gameInPlay s /\ _gamePaused s' = _gamePaused s
    /\ same_board s s'.
Proof.
  intros Hgen Hfree. unfold SpawnNewPiece. rewrite Hgen. simpl.
  destruct (spawn_shape piece s) as [Hfail | Hok];
    [| eexists; split; [by rewrite Hok | apply set_piece_fields]].
  exfalso.
  assert (Hblocked : (SpawnPiece piece s).1 = false) by (by rewrite Hfail).
  apply SpawnPiece_blocked in Hblocked as (x & y & c & Hocc & Hfix).
  apply occupied_shifted in Hocc.
  destruct (GenerateNewPiece_cells r piece Hgen) as [c0 Hcells].
  destruct (Hcells _ _ _ Hocc) as (_ & Hx & Hy).
  apply (Hfree x y); [lia | lia | done].
Qed.

Lemma spawn_on_clear_top_witness :
  exists s', SpawnNewPiece (1 # 2) (StartGame loaded) = Some (true, s')
    /\ _activePiece s' = APiece (shifted 3 (mkPiece 0 0 (matrixOf oPiece)))
    /\ _pieceInPlay s' = true
    /\ _gameInPlay s' = _gameInPlay (StartGame loaded)
    /\ _gamePaused s' = _gamePaused (StartGame loaded)
    /\ same_board (StartGame loaded) s'.
Proof.
  apply (spawn_on_clear_top (1 # 2) (mkPiece 0 0 (matrixOf oPiece)) (StartGame loaded)).
  - reflexivity.
  - intros x y _ Hy. apply StartGame_nothing_fixed. unfold _boardHeight. lia.
Defined.

(** X17: a sideways move is all or nothing, and this is when it moves.  With
    an active piece [p], [MovePieceSideways] leaves the state as it was if
    some occupied cell is at the wall it moves to (column 0 going left,
    column 9 going right) or has a fixed cell to its left or to its right;
    otherwise it returns a state in which [_activePiece] is the same piece
    one column over and nothing else has changed. *)
Theorem move_sideways_all_or_nothing (moveLeft : bool) (s : State) (p : Piece) :
  _activePiece s = APiece p ->
  ((exists x y c, occupied p x y c
      /\ ((moveLeft = true /\ x = 0) \/ isFixed (x - 1) y s
          \/ (moveLeft = false /\ x = _boardWidth - 1) \/ isFixed (x + 1) y s)) ->
   MovePieceSideways moveLeft s = Some s)
  /\ (~ (exists x y c, occupied p x y c
           /\ ((moveLeft = true /\ x = 0) \/ isFixed (x - 1) y s
               \/ (moveLeft = false /\ x = _boardWidth - 1) \/ isFixed (x + 1) y s)) ->
      exists s', MovePieceSideways moveLeft s = Some s'
        /\ _activePiece s' = APiece (shifted (if moveLeft then -1 else 1) p)
        /\ _pieceInPlay s' = _pieceInPlay s
        /\ _gameInPlay s' = _gameInPlay s /\ _gamePaused s' = _gamePaused s
        /\ same_board s s').
Proof.
  intros Ha. rewrite (MovePieceSideways_spec moveLeft s p Ha).
  pose proof (blockedSideways_exists moveLeft p s) as Hiff.
  destruct (existsb _ _); split.
  - done.
  - intros Hnot. exfalso. apply Hnot, Hiff. done.
  - intros Hblocked. apply Hiff in Hblocked. done.
  - intros _. eexists. split; [reflexivity | apply set_piece_fields].
Qed.

Lemma move_sideways_all_or_nothing_witness :
  MovePieceSideways true besideStack = Some besideStack.
Proof.
  destruct (move_sideways_all_or_nothing true besideStack (mkPiece 5 19 (matrixOf oPiece)))
    as [Hblocked _]; [reflexivity |].
  apply Hblocked. exists 6, 20, yellow. split.
  - exists 1%nat, 1%nat, [None; Some yellow; Some yellow; None].
    split; [reflexivity |]. split; [reflexivity |]. split; reflexivity.
  - right. left. vm_compute. reflexivity.
Defined.

Lemma fallSquares_nothing_falling s : _fallingSquares s = [] -> fallSquares s = s.
Proof.
  destruct s as [inPlay paused h placed falling rows piece pieceInPlay].
  simpl. intros ->. reflexivity.
Qed.

(** X18: a quiet tick only lowers the piece.  When the game is not paused, a
    piece is in play, no occupied cell of it is on the last row or has a
    fixed cell right below, nothing is falling and no row of the board is
    full, [GameLoop] returns a state in which [_activePiece] is the same
    piece one row lower and every other variable is as it was. *)
Theorem quiet_tick (r : Q) (s : State) (p : Piece) :
  _gamePaused s = false -> _pieceInPlay s = true -> _activePiece s = APiece p ->
  (forall x y c, occupied p x y c -> y + 1 < _boardHeight /\ ~ isFixed x (y + 1) s) ->
  _fallingSquares s = [] ->
  (forall k, 0 <= k < _boardHeight -> _collisionRows s !! k <> Some _fullRowVal) ->
  exists s', GameLoop r s = Some s'
    /\ _activePiece s' = APiece (lowered p) /\ _pieceInPlay s' = _pieceInPlay s
    /\ _gameInPlay s' = _gameInPlay s /\ _gamePaused s' = _gamePaused s
    /\ same_board s s'.
Proof.
  intros Hrunning Hplay Ha Hfree Hfalling Hnone.
  exists (set_piece (APiece (lowered p)) true s).
  split; [| rewrite Hplay; apply set_piece_fields].
  unfold GameLoop. rewrite Hrunning, Hplay. simpl.
  unfold Draw, ProcessGravity. rewrite Ha. simpl.
  assert (Hmove : existsb (blockedBelow s) (pieceCells p) = false).
  { destruct (existsb _ _) eqn:Hex; [| done].
    apply blockedBelow_exists in Hex as (x & y & c & Hocc & Hb).
    destruct (Hfree x y c Hocc) as [Hrow Hnot]. unfold _boardHeight in *.
    destruct Hb; [lia | done]. }
  unfold dropPiece. rewrite Hmove, Hplay. simpl.
  rewrite fallSquares_nothing_falling by done.
  unfold CheckForRowsCleared. apply scanRows_none_full.
  intros k Hk. destruct (rowIsFull k _) eqn:Hfull; [| done].
  apply rowIsFull_true in Hfull. exfalso. apply (Hnone k); [| done].
  unfold _boardHeight in *. lia.
Qed.

Lemma quiet_tick_witness :
  exists s', GameLoop (1 # 2) oAtTop = Some s'
    /\ _activePiece s' = APiece (lowered (mkPiece 3 1 (matrixOf oPiece)))
    /\ _pieceInPlay s' = _pieceInPlay oAtTop
    /\ _gameInPlay s' = _gameInPlay oAtTop /\ _gamePaused s' = _gamePaused oAtTop
    /\ same_board oAtTop s'.
Proof.
  apply (quiet_tick (1 # 2) oAtTop (mkPiece 3 1 (matrixOf oPiece))).
  - reflexivity.
  - reflexivity.
  - reflexivity.
  - intros x y c Hocc%pieceCells_occupied.
    assert (Hy : 0 <= y <= 3).
    { vm_compute in Hocc.
      repeat (destruct Hocc as [Hocc | Hocc]; [injection Hocc as <- <- <-; lia |]).
      done. }
    split; [unfold _boardHeight; lia |].
    intros Hfix. apply (StartGame_nothing_fixed x (y + 1)); [unfold _boardHeight; lia |].
    exact Hfix.
  - reflexivity.
  - intros k Hk. unfold oAtTop. cbn [_collisionRows set_piece]. by rewrite StartGame_rows.
Defined.

(** ** Drawing on the canvas *)

Lemma squareWidth_div cv : _squareWidth cv = clientWidth cv / _boardWidth.
Proof. unfold _squareWidth, Math_floor. symmetry. apply Zdiv_Qdiv. Qed.

Lemma squareHeight_div cv : _squareHeight cv = clientHeight cv / (_boardHeight - 2).
Proof. unfold _squareHeight, Math_floor. symmetry. apply Zdiv_Qdiv. Qed.

(** X19: the rectangle [DrawBlock] fills.  On a canvas of non-negative
    client size, a square in columns 0 to 9 of rows 2 to 21 is drawn inside
    the client area, and a square of row 0 or 1 is drawn wholly above it:
    its bottom edge is at or above pixel row 0. *)
Theorem DrawBlock_on_canvas (cv : Canvas) (b : Square) :
  0 <= clientWidth cv -> 0 <= clientHeight cv -> 0 <= sq_x b < _boardWidth ->
  (2 <= sq_y b < _boardHeight ->
     0 <= rx (DrawBlock cv b)
     /\ rx (DrawBlock cv b) + rw (DrawBlock cv b) <= clientWidth cv
     /\ 0 <= ry (DrawBlock cv b)
     /\ ry (DrawBlock cv b) + rh (DrawBlock cv b) <= clientHeight cv)
  /\ (0 <= sq_y b < 2 -> ry (DrawBlock cv b) + rh (DrawBlock cv b) <= 0).
Proof.
  intros Hw Hh Hx. unfold DrawBlock. cbn [rx ry rw rh].
  rewrite squareWidth_div, squareHeight_div.
  unfold _boardWidth, _boardHeight in *.
  change (22 - 2) with 20.
  pose proof (Z.mul_div_le (clientWidth cv) 10 ltac:(lia)) as Hwd.
  pose proof (Z.mul_div_le (clientHeight cv) 20 ltac:(lia)) as Hhd.
  pose proof (Z.div_pos (clientWidth cv) 10 Hw ltac:(lia)) as Hw0.
  pose proof (Z.div_pos (clientHeight cv) 20 Hh ltac:(lia)) as Hh0.
  split; [intros Hy; split_and! | intros Hy]; nia.
Qed.

Lemma DrawBlock_on_canvas_witness :
  (2 <= 21 < _boardHeight ->
     0 <= rx (DrawBlock (mkCanvas 305 610) (mkSquare 9 21 red))
     /\ rx (DrawBlock (mkCanvas 305 610) (mkSquare 9 21 red))
        + rw (DrawBlock (mkCanvas 305 610) (mkSquare 9 21 red)) <= 305
     /\ 0 <= ry (DrawBlock (mkCanvas 305 610) (mkSquare 9 21 red))
     /\ ry (DrawBlock (mkCanvas 305 610) (mkSquare 9 21 red))
        + rh (DrawBlock (mkCanvas 305 610) (mkSquare 9 21 red)) <= 610)
  /\ (0 <= 21 < 2 ->
      ry (DrawBlock (mkCanvas 305 610) (mkSquare 9 21 red))
      + rh (DrawBlock (mkCanvas 305 610) (mkSquare 9 21 red)) <= 0).
Proof.
  apply (DrawBlock_on_canvas (mkCanvas 305 610) (mkSquare 9 21 red)); simpl;
    unfold _boardWidth; lia.
Defined.

(** ** The placed list *)

Lemma scanRows_placed_NoDup n i s s' :
  scanRows n i s = Some s' -> NoDup (_placedSquares s) -> NoDup (_placedSquares s').
Proof.
  revert i s. induction n as [| n IH]; intros i s; cbn [scanRows].
  - by intros [= <-].
  - destruct (rowIsFull i s).
    + destruct (Draw (RemoveRow i s)); [| done]. simpl. intros Hscan Hnd.
      apply (IH _ _ Hscan).
      destruct (RemoveRow_spec i s) as (_ & _ & -> & _).
      unfold offRow. by apply NoDup_ListNoDup, List.NoDup_filter, NoDup_ListNoDup.
    + simpl. apply IH.
Qed.

Lemma dropPiece_placed_NoDup p s :
  allocated s (_placedSquares s) -> NoDup (_placedSquares s) ->
  NoDup (_placedSquares (dropPiece p s)).
Proof.
  intros Halloc Hnd. unfold dropPiece. destruct (negb _); [done |].
  destruct (landing_spec (pieceCells p) s) as (_ & Hp & _).
  cbn [set_piece _placedSquares]. rewrite Hp.
  apply NoDup_app. split_and!; [done | | apply NoDup_ListNoDup, List.seq_NoDup].
  intros b Hb Hnew%list_elem_of_In%in_seq.
  unfold allocated in Halloc. rewrite Forall_forall in Halloc.
  apply Halloc in Hb. lia.
Qed.

Lemma GameLoop_placed_NoDup r s s' :
  game_invariant s -> NoDup (_placedSquares s) ->
  GameLoop r s = Some s' -> NoDup (_placedSquares s').
Proof.
  intros (Halloc & _) Hnd. unfold GameLoop.
  destruct (_gamePaused s); [by intros [= <-] |].
  assert (Hrest : forall s1,
            heap s1 = heap s -> _placedSquares s1 = _placedSquares s ->
            (_ ← Draw s1; s2 ← ProcessGravity s1; CheckForRowsCleared s2) = Some s' ->
            NoDup (_placedSquares s')).
  { intros s1 Hh Hp. destruct (Draw s1); [| done]. simpl.
    unfold ProcessGravity. destruct (_activePiece s1) as [| | p]; try done. simpl.
    intros Hscan. apply (scanRows_placed_NoDup _ _ _ _ Hscan).
    destruct (fallSquares_spec (dropPiece p s1)) as (_ & _ & -> & _).
    apply dropPiece_placed_NoDup; [| by rewrite Hp].
    unfold allocated. by rewrite Hh, Hp. }
  destruct (_pieceInPlay s); simpl; [by apply (Hrest s) |].
  unfold SpawnNewPiece. destruct (GenerateNewPiece r) as [piece |]; [| done]. simpl.
  destruct (spawn_shape piece s) as [Hsp | Hsp]; rewrite Hsp; simpl.
  - by intros [= <-].
  - by apply (Hrest (set_piece (APiece (shifted 3 piece)) true s)).
Qed.

(** X20: in every state a started game reaches, [_placedSquares] holds
    square objects that exist, and holds none of them twice, also while
    they are on [_fallingSquares] as well; so one [Draw] fills exactly one
    rectangle per placed square object. *)
Theorem placed_squares_distinct (es : list Event) (pg : Page) (cv : Canvas) :
  run es started = Some pg ->
  NoDup (_placedSquares (state pg))
  /\ Forall (fun b => is_Some (heap (state pg) !! b)) (_placedSquares (state pg))
  /\ forall rects, DrawCalls cv (state pg) = Some rects ->
       length rects
       = (length (_placedSquares (state pg))
          + match _activePiece (state pg) with APiece _ => 4 | _ => 0 end)%nat.
Proof.
  intros Hrun.
  assert (Hnd : forall es pg0 pg1, game_invariant (state pg0) ->
            NoDup (_placedSquares (state pg0)) -> run es pg0 = Some pg1 ->
            NoDup (_placedSquares (state pg1))).
  { clear. induction es as [| e es IH]; intros pg0 pg1 Hinv Hnd; cbn [run].
    - by intros [= <-].
    - destruct (deliver e pg0) as [pg2 |] eqn:Hstep; [| done]. simpl.
      assert (Hinv2 : game_invariant (state pg2))
        by (apply (run_invariant [e] pg0); [done | cbn [run]; by rewrite Hstep]).
      apply IH; [done |].
      destruct e as [r | key]; simpl in Hstep.
      + unfold onInterval in Hstep. destruct (interval pg0).
        * destruct (GameLoop r (state pg0)) as [s1 |] eqn:Hloop; [| done].
          simpl in Hstep. injection Hstep as <-. by apply (GameLoop_placed_NoDup r (state pg0)).
        * by injection Hstep as <-.
      + destruct (HandleKeyInput key (state pg0)) as [s1 |] eqn:Hkey; [| done].
        simpl in Hstep. injection Hstep as <-. simpl.
        apply HandleKeyInput_cases in Hkey
          as [-> | [[_ ->] | [(p & dx & _ & _ & ->) | (p & m' & _ & _ & _ & ->)]]];
          done. }
  pose proof (reached_invariant es pg Hrun) as (Halloc & _).
  assert (Hshape : piece_shape_ok (state pg)) by (by apply (run_shape es started)).
  split_and!.
  - apply (Hnd es started pg); [apply started_invariant | constructor | done].
  - unfold allocated in Halloc. eapply Forall_impl; [exact Halloc |].
    intros b Hb. by apply lookup_lt_is_Some.
  - intros rects. unfold DrawCalls. unfold piece_shape_ok in Hshape.
    destruct (_activePiece (state pg)) as [| | p]; [done | |]; intros [= <-].
    + rewrite length_map. lia.
    + rewrite length_app, !length_map. f_equal.
      destruct Hshape as [_ Hcount]. unfold pieceCells. by rewrite matrixCells_length.
Qed.

Lemma placed_squares_distinct_witness :
  NoDup (_placedSquares besideStack)
  /\ Forall (fun b => is_Some (heap besideStack !! b)) (_placedSquares besideStack)
  /\ forall rects, DrawCalls (mkCanvas 300 600) besideStack = Some rects ->
       length rects
       = (length (_placedSquares besideStack)
          + match _activePiece besideStack with APiece _ => 4 | _ => 0 end)%nat.
Proof.
  apply (placed_squares_distinct besideStack_game (mkPage true besideStack)
                                 (mkCanvas 300 600)).
  vm_compute. reflexivity.
Defined.

(** ** Falling squares *)

Lemma fallSquare_head s still b sq s' still' :
  heap s !! b = Some sq ->
  fallSquare (s, still) b = (s', still') ->
  (still' = still ++ [b]
   /\ heap s' !! b = Some (mkSquare (sq_x sq) (sq_y sq + 1) (sq_color sq))
   /\ sq_y sq < _boardHeight - 1 /\ ~ isFixed (sq_x sq) (sq_y sq + 1) s)
  \/ (still' = still /\ heap s' !! b = Some sq
      /\ isFixed (sq_x sq) (sq_y sq) s'
      /\ (_boardHeight - 1 <= sq_y sq \/ isFixed (sq_x sq) (sq_y sq + 1) s)).
Proof.
  intros Hb. unfold fallSquare.
  assert (Heq : heap s !!! b = sq) by exact (list_lookup_total_correct _ _ _ Hb).
  rewrite Heq.
  destruct (sq_y sq <? _boardHeight - 1) eqn:Hfloor;
    destruct (JS.truthy (SquareFixedAt (sq_x sq) (sq_y sq + 1) s)) eqn:Hbelow;
    simpl; intros [= <- <-].
  - right. split_and!; [done | done | apply SquareFixedAt_FixSquareAt | by right].
  - left. apply Z.ltb_lt in Hfloor. split_and!; [done | | done |].
    + apply list_lookup_insert_eq. by eapply lookup_lt_Some.
    + unfold isFixed. by rewrite Hbelow.
  - right. apply Z.ltb_ge in Hfloor.
    split_and!; [done | done | apply SquareFixedAt_FixSquareAt | by left].
  - right. apply Z.ltb_ge in Hfloor.
    split_and!; [done | done | apply SquareFixedAt_FixSquareAt | by left].
Qed.

Lemma foldl_fallSquare_still l s still s' still' b :
  foldl fallSquare (s, still) l = (s', still') -> In b still -> In b still'.
Proof.
  revert s still. induction l as [| a l IH]; intros s still; cbn [foldl].
  - by intros [= <- <-].
  - destruct (fallSquare (s, still) a) as [s1 still1] eqn:Hstep. intros Hfold Hin.
    apply (IH _ _ Hfold).
    apply fallSquare_spec in Hstep as (_ & _ & _ & _ & _ & _ & [-> | ->]); [done |].
    apply in_or_app. by left.
Qed.

Lemma foldl_fallSquare_each l s still s' still' b sq :
  foldl fallSquare (s, still) l = (s', still') ->
  NoDup l -> In b l -> ~ In b still -> heap s !! b = Some sq ->
  (In b still'
   /\ heap s' !! b = Some (mkSquare (sq_x sq) (sq_y sq + 1) (sq_color sq))
   /\ sq_y sq < _boardHeight - 1)
  \/ (~ In b still' /\ heap s' !! b = Some sq /\ isFixed (sq_x sq) (sq_y sq) s').
Proof.
  revert s still. induction l as [| a l IH]; intros s still; cbn [foldl]; [done |].
  destruct (fallSquare (s, still) a) as [s1 still1] eqn:Hstep.
  intros Hfold Hnd Hin Hstill Hb.
  apply NoDup_cons in Hnd as [Hfresh Hnd].
  destruct (decide (a = b)) as [-> | Hne].
  - assert (Hnot : ~ In b l) by (by rewrite <- list_elem_of_In).
    pose proof (foldl_fallSquare_spec _ _ _ _ _ Hfold) as (_ & Hheap & _ & _ & _ & Hmono & Hsub).
    destruct (fallSquare_head _ _ _ _ _ _ Hb Hstep)
      as [(-> & Hb1 & Hfloor & _) | (-> & Hb1 & Hfix & _)].
    + left. split_and!; [| by rewrite Hheap | done].
      apply (foldl_fallSquare_still _ _ _ _ _ _ Hfold). apply in_or_app. right. by left.
    + right. split_and!; [| by rewrite Hheap | by apply Hmono].
      intros [? | ?]%Hsub; done.
  - destruct Hin as [? | Hin]; [done |].
    apply (IH _ _ Hfold Hnd Hin).
    + apply fallSquare_spec in Hstep as (_ & _ & _ & _ & _ & _ & [-> | ->]); [done |].
      intros [? | [? | []]]%in_app_or; done.
    + apply fallSquare_spec in Hstep as (_ & Hheap & _). by rewrite Hheap.
Qed.

(** X21: what gravity does to a falling square.  If no square is listed
    twice on [_fallingSquares], then each square [{x, y, color}] on it
    either falls exactly one row, not below the board's last row, and
    stays on the list, or keeps its place, leaves the list and has its bit set in the
    collision index. *)
Theorem falling_square_step (s : State) (b : ref) (sq : Square) :
  NoDup (_fallingSquares s) -> In b (_fallingSquares s) -> heap s !! b = Some sq ->
  (In b (_fallingSquares (fallSquares s))
   /\ heap (fallSquares s) !! b = Some (mkSquare (sq_x sq) (sq_y sq + 1) (sq_color sq))
   /\ sq_y sq + 1 <= _boardHeight - 1)
  \/ (~ In b (_fallingSquares (fallSquares s))
      /\ heap (fallSquares s) !! b = Some sq
      /\ isFixed (sq_x sq) (sq_y sq) (fallSquares s)).
Proof.
  intros Hnd Hin Hb. unfold fallSquares.
  destruct (foldl fallSquare (s, []) (_fallingSquares s)) as [s1 still] eqn:Hfold.
  destruct (foldl_fallSquare_each _ _ _ _ _ b sq Hfold Hnd Hin) as [H | H];
    [by intros [] | done | |]; simpl.
  - left. destruct H as (? & ? & ?). split_and!; [done | done | lia].
  - by right.
Qed.

Lemma falling_square_step_witness :
  (In 2%nat (_fallingSquares (fallSquares (RemoveRow 20 twoFullRows)))
   /\ heap (fallSquares (RemoveRow 20 twoFullRows)) !! 2%nat
      = Some (mkSquare (sq_x (mkSquare 0 21 yellow)) (sq_y (mkSquare 0 21 yellow) + 1)
                       (sq_color (mkSquare 0 21 yellow)))
   /\ sq_y (mkSquare 0 21 yellow) + 1 <= _boardHeight - 1)
  \/ (~ In 2%nat (_fallingSquares (fallSquares (RemoveRow 20 twoFullRows)))
      /\ heap (fallSquares (RemoveRow 20 twoFullRows)) !! 2%nat
         = Some (mkSquare 0 21 yellow)
      /\ isFixed (sq_x (mkSquare 0 21 yellow)) (sq_y (mkSquare 0 21 yellow))
                 (fallSquares (RemoveRow 20 twoFullRows))).
Proof.
  apply (falling_square_step (RemoveRow 20 twoFullRows) 2%nat (mkSquare 0 21 yellow)).
  - apply (bool_decide_unpack _). vm_compute. exact I.
  - vm_compute. tauto.
  - reflexivity.
Defined.

(** [Draw] raises exactly when there is no list of rectangles. *)
Lemma DrawCalls_raises cv s : DrawCalls cv s = None <-> Draw s = None.
Proof. unfold DrawCalls, Draw. by destruct (_activePiece s). Qed.
